(** * OpenBook: height cache, virtual message list and debounced persistence

    A shallow embedding of the prototype code of the repository's
    performance notes:

    - [MessageHeightCache] and [VirtualMessageList]
      (virtual scrolling note, filed under [contexts/SettingsContext.tsx]);
    - [useDebouncedLocalStorage], [LocalStorageQueue], [compressedStorage],
      [IndexedDBService], [cleanupOldData] and
      [migrateLocalStorageToIndexedDB] (localStorage note).

    JavaScript numbers are IEEE 754 binary64 values, so heights and scroll
    offsets are Rocq's primitive floats; maps are stdpp's [gmap]; timers and
    idle callbacks are explicit entries of a host state, and time is a clock
    in milliseconds that only [advance] moves.

    Part I holds the program, one module per source file. Part II holds the
    lemmas and the theorems on the claims [C1] to [C10] and the further
    properties [X1] to [X25], one module of facts per module of Part I. *)

From Stdlib Require Import PrimFloat SpecFloat FloatOps FloatAxioms.
From Stdlib Require Import ZArith Lia Ascii String Sorted.
From stdpp Require Import gmap strings list.

(* ===================================================================== *)
(** * Part I: the program *)
(* ===================================================================== *)

(** ** JavaScript numbers and strings *)

Module Js.

(** The TypeScript type [number]. *)
Definition number : Set := float.

(** [ToBoolean] on a number: [+0], [-0] and [NaN] are falsy. *)
Definition truthy (x : number) : bool :=
  negb ((x =? 0)%float || is_nan x).

(** [x || d] where [x] may be [undefined] (a missing map entry or object
    property): [undefined] is falsy too. *)
Definition or_else (x : option number) (d : number) : number :=
  match x with
  | Some h => if truthy h then h else d
  | None => d
  end.

(** [x !== y] where [x] may be [undefined]. *)
Definition strict_neq (x : option number) (y : number) : bool :=
  match x with
  | Some h => negb (h =? y)%float
  | None => true
  end.

(** [String.prototype.includes]: [needle] occurs somewhere in [hay]. *)
Fixpoint includes (needle hay : string) : bool :=
  String.prefix needle hay ||
  match hay with
  | EmptyString => false
  | String _ rest => includes needle rest
  end.

(** [String.prototype.repeat] on a one-character string. *)
Fixpoint repeat_char (a : ascii) (n : nat) : string :=
  match n with
  | O => EmptyString
  | S k => String a (repeat_char a k)
  end.

End Js.

(** ** MessageHeightCache  ([lib/utils/messageHeightCache.ts]) *)

Module HeightCache.
Import Js.

(** A message part; only its [type] tag is read. *)
Record Part : Type := { type : string }.

(** The fields of [Message] the cache reads. [content] and [parts] are
    optional ([?.] in the source). Characters of [content] stand for UTF-16
    code units. *)
Record Message : Type := {
  id : string;
  content : option string;
  parts : option (list Part)
}.

(** [private defaultHeight = 200] *)
Definition defaultHeight : number := 200%float.

(** The object state: [private cache: Map<string, number>]. *)
Record MessageHeightCache : Type := { cache : gmap string number }.

Definition new : MessageHeightCache := {| cache := ∅ |}.

(** [get(messageId) { return this.cache.get(messageId) || this.defaultHeight }] *)
Definition get (this : MessageHeightCache) (messageId : string) : number :=
  or_else (cache this !! messageId) defaultHeight.

(** [set(messageId, height) { this.cache.set(messageId, height) }] *)
Definition set (this : MessageHeightCache) (messageId : string)
    (height : number) : MessageHeightCache :=
  {| cache := <[messageId := height]> (cache this) |}.

(** [has(messageId) { return this.cache.has(messageId) }] *)
Definition has (this : MessageHeightCache) (messageId : string) : bool :=
  bool_decide (is_Some (cache this !! messageId)).

(** [clear() { this.cache.clear() }] *)
Definition clear (this : MessageHeightCache) : MessageHeightCache :=
  {| cache := ∅ |}.

(** [message.content?.length || 0] *)
Definition contentLength (message : Message) : nat :=
  match content message with
  | Some s => String.length s
  | None => 0
  end.

(** [message.content?.includes('```')], read as a condition. *)
Definition hasCode (message : Message) : bool :=
  match content message with
  | Some s => includes "```" s
  | None => false
  end.

(** [message.parts?.some(p => p.type === 'image')], read as a condition. *)
Definition hasImages (message : Message) : bool :=
  match parts message with
  | Some ps => existsb (λ p, bool_decide (type p = "image")) ps
  | None => false
  end.

(** [estimate(message)]: the recorded height when the cache has the id,
    else the content heuristics. *)
Definition estimate (this : MessageHeightCache) (message : Message) : number :=
  if has this (id message) then get this (id message)
  else
    let estimatedHeight := defaultHeight in
    let estimatedHeight :=
      if (500 <? contentLength message)%nat
      then (estimatedHeight + 100)%float else estimatedHeight in
    let estimatedHeight :=
      if (1000 <? contentLength message)%nat
      then (estimatedHeight + 200)%float else estimatedHeight in
    let estimatedHeight :=
      if hasCode message
      then (estimatedHeight + 150)%float else estimatedHeight in
    let estimatedHeight :=
      if hasImages message
      then (estimatedHeight + 300)%float else estimatedHeight in
    estimatedHeight.

(** ** Sample messages *)

Definition plain (i : string) (n : nat) : Message :=
  {| id := i; content := Some (repeat_char "a" n); parts := None |}.

Definition rich (i : string) (n : nat) : Message :=
  {| id := i;
     content := Some ("```" +:+ repeat_char "a" n);
     parts := Some [ {| type := "text" |}; {| type := "image" |} ] |}.

End HeightCache.

(** ** VirtualMessageList
       ([components/features/spaces/chat/virtual-message-list.tsx]) *)

Module VirtualList.
Import Js.
Export HeightCache.

(** The component of step 2 of the note, with the scroll tracking of step 7
    ([isNearBottom], [handleScroll]) in the place of [shouldScrollToBottom],
    as that step rewrites it. *)

(** ** The window of the list *)

(** [WindowRange]: the indices [startIndex .. endIndex] (both included) and
    the absolute top offset of each. The empty range is [None]. *)
Record WindowRange : Type := {
  startIndex : nat;
  endIndex : nat;
  offsets : list number
}.

(** Modelled from the spec: the running prefix sum of §4.2. [offsetOf h i] is
    the absolute top offset of item [i], the sum of the heights before it. *)
Fixpoint offsetOf (heightOf : nat → number) (index : nat) : number :=
  match index with
  | O => 0%float
  | S k => (offsetOf heightOf k + heightOf k)%float
  end.

(** Modelled from the spec: [computeWindow] of §4.2, which the source leaves
    to react-window's [VariableSizeList] (a dependency, not part of the
    sources). The first item whose cumulative offset exceeds [scrollOffset]
    and the last item whose offset is below [scrollOffset + viewportHeight]
    are found, both ends are widened by [overscanCount] and clamped to
    [0 .. itemCount - 1]; no item gives the empty range, and a viewport that
    is not measured yet gives the first [overscanCount * 2] items (at least
    one). The search is linear here; the result is that of the binary
    search. This is the windower the spec describes, kept as a sample of
    what a list can compute: on scenario B of §8 the algorithm of §4.2
    selects [245 .. 258] (the item at index 254 starts at the bottom edge
    50800 and is not below it), and react-window's own range differs from
    it while the list is being scrolled. What is proved of the component
    holds for every range computation, see [ListRange]. *)
Definition computeWindow (itemCount : nat) (heightOf : nat → number)
    (scrollOffset viewportHeight : number) (overscanCount : nat)
    : option WindowRange :=
  match itemCount with
  | O => None
  | S lastIndex =>
      let range first last :=
        Some {| startIndex := first; endIndex := last;
                offsets := map (offsetOf heightOf) (seq first (S last - first)) |} in
      if (viewportHeight <=? 0)%float
      then range 0 (Nat.min (overscanCount * 2 - 1) lastIndex)
      else
        let first :=
          default lastIndex
            (find (λ i, (scrollOffset <? offsetOf heightOf (S i))%float)
                  (seq 0 itemCount)) in
        let last :=
          default 0
            (find (λ i, (offsetOf heightOf i <? scrollOffset + viewportHeight)%float)
                  (rev (seq 0 itemCount))) in
        range (first - overscanCount) (Nat.min (last + overscanCount) lastIndex)
  end.

(** The indices of a range. *)
Definition indices (w : option WindowRange) : list nat :=
  match w with
  | None => []
  | Some r => seq (startIndex r) (S (endIndex r) - startIndex r)
  end.

(** ** The component *)

Inductive Align : Type := AlignStart | AlignCenter | AlignEnd.

(** Calls made on [listRef.current]. *)
Inductive ListCall : Type :=
| scrollToItem (index : nat) (align : Align)
| resetAfterIndex (index : nat).

(** [VirtualMessageListProps] *)
Record Props : Type := {
  messages : list Message;
  isStreaming : bool;
  currentMessageId : option string
}.

(** What the component reads of the mounted [List]: [props.height], the
    height [AutoSizer] handed down. *)
Record ListInstance : Type := { props_height : number }.

(** The instance: refs, state, the dependencies of the last run of the
    auto-scroll effect, and the calls made on the list so far. *)
Record Instance : Type := {
  listRef : option ListInstance;
  rowHeights : gmap nat number;
  isNearBottom : bool;
  effectDeps : option (nat * bool);
  calls : list ListCall
}.

(** What [Row] hands to [MessageComponent]. *)
Record RowElement : Type := {
  row_message : Message;
  row_isLast : bool;
  row_isStreaming : bool
}.

(** [rowHeights.current[index] || 200] *)
Definition getRowHeight (st : Instance) (index : nat) : number :=
  or_else (rowHeights st !! index) 200%float.

(** [setRowHeight]: a changed size is stored and the list is told to
    recompute from [index] on. *)
Definition setRowHeight (st : Instance) (index : nat) (size : number) : Instance :=
  if strict_neq (rowHeights st !! index) size then
    {| listRef := listRef st;
       rowHeights := <[index := size]> (rowHeights st);
       isNearBottom := isNearBottom st;
       effectDeps := effectDeps st;
       calls := calls st ++
                match listRef st with
                | Some _ => [resetAfterIndex index]
                | None => []
                end |}
  else st.

(** [messages.reduce((sum, _, i) => sum + getRowHeight(i), 0)] *)
Definition totalHeight (props : Props) (st : Instance) : number :=
  foldl (λ sum i, (sum + getRowHeight st i)%float) 0%float
        (seq 0 (length (messages props))).

(** [totalHeight - (scrollOffset + listHeight)] with
    [listHeight = listRef.current?.props.height || 0]. *)
Definition distanceFromBottom (props : Props) (st : Instance)
    (scrollOffset : number) : number :=
  let listHeight := or_else (props_height <$> listRef st) 0%float in
  (totalHeight props st - (scrollOffset + listHeight))%float.

(** [handleScroll({ scrollOffset, scrollUpdateWasRequested })] *)
Definition handleScroll (props : Props) (st : Instance)
    (scrollOffset : number) (scrollUpdateWasRequested : bool) : Instance :=
  if negb scrollUpdateWasRequested then
    {| listRef := listRef st;
       rowHeights := rowHeights st;
       isNearBottom := (distanceFromBottom props st scrollOffset <? 100)%float;
       effectDeps := effectDeps st;
       calls := calls st |}
  else st.

(** The body of the auto-scroll effect. *)
Definition autoScroll (props : Props) (st : Instance) : list ListCall :=
  if isNearBottom st && (0 <? length (messages props))%nat then
    match listRef st with
    | Some _ => [scrollToItem (length (messages props) - 1) AlignEnd]
    | None => []
    end
  else [].

(** One commit of a render: the effect runs when
    [[messages.length, isNearBottom]] differs from the last run. *)
Definition commit (props : Props) (st : Instance) : Instance :=
  let deps := (length (messages props), isNearBottom st) in
  if bool_decide (effectDeps st = Some deps) then st
  else
    {| listRef := listRef st;
       rowHeights := rowHeights st;
       isNearBottom := isNearBottom st;
       effectDeps := Some deps;
       calls := calls st ++ autoScroll props st |}.

(** The first render and what follows it. At the first commit [AutoSizer]
    has not measured its box and renders no [List]: the effect runs with
    [listRef.current] null. [AutoSizer] then renders [List] with the height
    [viewport]. On mounting, [List] reports its initial scroll offset 0 as a
    scroll that was not requested, before React attaches the ref, so
    [handleScroll] reads [listHeight] as 0. Then the ref is attached, and a
    changed [isNearBottom] is committed. *)
Definition mount (props : Props) (viewport : number) : Instance :=
  let first :=
    commit props
      {| listRef := None;
         rowHeights := ∅;
         isNearBottom := true;
         effectDeps := None;
         calls := [] |} in
  let reported := handleScroll props first 0%float false in
  commit props
    {| listRef := Some {| props_height := viewport |};
       rowHeights := rowHeights reported;
       isNearBottom := isNearBottom reported;
       effectDeps := effectDeps reported;
       calls := calls reported |}.

(** The list reports a scroll. *)
Definition onScroll (props : Props) (st : Instance)
    (scrollOffset : number) (scrollUpdateWasRequested : bool) : Instance :=
  commit props (handleScroll props st scrollOffset scrollUpdateWasRequested).

(** The parent renders the component with new props. *)
Definition onProps (props : Props) (st : Instance) : Instance :=
  commit props st.

(** What happens to the component without the user scrolling: a scroll the
    component requested itself is reported, or a row is measured. *)
Inductive Passive : Type :=
| Requested (scrollOffset : number)
| Measured (index : nat) (size : number).

Definition passive (props : Props) (st : Instance) (e : Passive) : Instance :=
  match e with
  | Requested scrollOffset => onScroll props st scrollOffset true
  | Measured index size => setRowHeight st index size
  end.

(** A new message at the end of the transcript. *)
Definition append (props : Props) (message : Message) : Props :=
  {| messages := messages props ++ [message];
     isStreaming := isStreaming props;
     currentMessageId := currentMessageId props |}.

(** [Row({ index })] *)
Definition Row (props : Props) (index : nat) : option RowElement :=
  message ← messages props !! index;
  Some {| row_message := message;
          row_isLast := bool_decide (index = length (messages props) - 1);
          row_isStreaming :=
            isStreaming props &&
            bool_decide (currentMessageId props = Some (id message)) |}.

(** The range computation of a list component: from the state the list
    keeps itself (its scroll offset, and for react-window the direction and
    whether a scroll is going on) and from what it is handed, [itemCount],
    [itemSize], [height] and [overscanCount], to the indices it mounts.
    react-window is a dependency and its computation is not in the sources;
    the component is modelled for every such computation. *)
Definition ListRange (L : Type) : Type :=
  L → nat → (nat → number) → number → nat → list nat.

(** The indices [List] mounts: [itemCount = messages.length],
    [itemSize = getRowHeight], [height], [overscanCount = 5]. Nothing else
    is handed to [List]. *)
Definition mountedIndicesBy {L : Type} (rangeOf : ListRange L) (inner : L)
    (props : Props) (st : Instance) : list nat :=
  match listRef st with
  | Some l =>
      rangeOf inner (length (messages props)) (getRowHeight st) (props_height l) 5
  | None => []
  end.

(** The rows in the DOM. *)
Definition mountedBy {L : Type} (rangeOf : ListRange L) (inner : L)
    (props : Props) (st : Instance) : list RowElement :=
  omap (Row props) (mountedIndicesBy rangeOf inner props st).

(** The windower of the spec as a list that keeps a scroll offset. *)
Definition windowRange : ListRange number :=
  λ scrollOffset itemCount heightOf viewportHeight overscanCount,
    indices (computeWindow itemCount heightOf scrollOffset viewportHeight
                           overscanCount).

Definition mountedIndices (props : Props) (st : Instance)
    (scrollOffset : number) : list nat :=
  mountedIndicesBy windowRange scrollOffset props st.

Definition mounted (props : Props) (st : Instance)
    (scrollOffset : number) : list RowElement :=
  mountedBy windowRange scrollOffset props st.

(** A transcript of [n] short messages with the ids ["m"], ["mm"], ... *)
Definition transcript (n : nat) : list Message :=
  map (λ i, plain (repeat_char "m" (S i)) 20) (seq 0 n).


(** ** Scrolling to a message (step 8) *)

(** [Array.prototype.findIndex]; [None] is the result [-1]. *)
Fixpoint findIndex {A : Type} (p : A → bool) (l : list A) : option nat :=
  match l with
  | [] => None
  | x :: l' => if p x then Some 0 else S <$> findIndex p l'
  end.

(** The body of the effect on [[scrollToMessageId, messages]]. The id is
    optional, and an empty string is falsy like a missing one. *)
Definition scrollToMessage (props : Props) (scrollToMessageId : option string)
    (st : Instance) : list ListCall :=
  match scrollToMessageId with
  | None => []
  | Some target =>
      if bool_decide (target = "") then []
      else
        match findIndex (λ m, bool_decide (id m = target)) (messages props) with
        | Some index =>
            match listRef st with
            | Some _ => [scrollToItem index AlignCenter]
            | None => []
            end
        | None => []
        end
  end.

End VirtualList.

(** ** window.localStorage *)

Module LocalStorage.

Section Backend.

(** Whether the store takes a value for a key, given what it holds: a full
    quota or an unavailable store refuses. *)
Variable quota : gmap string string → string → string → bool.

(** [localStorage.setItem(key, value)]; [None] when it throws. *)
Definition setItem (items : gmap string string) (key value : string)
    : option (gmap string string) :=
  if quota items key value then Some (<[key := value]> items) else None.

End Backend.

(** A store without limit, and one that is full. *)
Definition unlimited : gmap string string → string → string → bool :=
  λ _ _ _, true.
Definition full : gmap string string → string → string → bool :=
  λ _ _ _, false.

(** A store that refuses the key ["big"]. *)
Definition refusesBig : gmap string string → string → string → bool :=
  λ _ k _, bool_decide (k ≠ "big").

(** Sample values are counters; [JSON.stringify] of [n] is taken to be a
    string of [n] characters. *)
Definition payloadOf (n : nat) : option string := Some (Js.repeat_char "x" n).


(** [JSON.parse] on the sample payloads: the counter is the length. *)
Definition countOf (payload : string) : option nat :=
  Some (String.length payload).

End LocalStorage.

(** ** useDebouncedLocalStorage  ([hooks/useDebouncedLocalStorage.ts]) *)

Module DebouncedStorage.
Import LocalStorage.

Inductive ConsoleLine : Type :=
| Saved (key : string)
| WriteError (key : string).

(** A call of [localStorage.setItem] the store received, with the time of
    the call and whether the store took the value. *)
Record Write : Type := {
  w_time : Z;
  w_key : string;
  w_payload : string;
  w_stored : bool
}.

Section Hook.

Context {T : Type}.

(** [JSON.stringify]; [None] when it throws. *)
Variable stringify : T → option string.
(** [Object.is], by which React decides whether state and dependencies
    changed. *)
Variable same : T → T → bool.
Variable quota : gmap string string → string → string → bool.

(** A timer of the host, with what the callback of the hook closes over:
    the [key] and [storedValue] of the render that set it. *)
Record Timer : Type := {
  timer_id : positive;
  due : Z;
  cb_key : string;
  cb_value : T
}.

(** The host: clock in milliseconds, timers, store, console. *)
Record Host : Type := {
  now : Z;
  timers : list Timer;
  nextId : positive;
  items : gmap string string;
  writes : list Write;
  console : list ConsoleLine
}.

(** The hook instance: arguments, state and ref. *)
Record Hook : Type := {
  key : string;
  delay : Z;
  storedValue : T;
  timeoutRef : option positive
}.

Definition World : Type := Host * Hook.

(** The delay a timer of the host runs with. The host keeps the delay in a
    signed 32-bit integer: one above 2^31 - 1 does not fit, and the timer is
    set to 1 ms instead; a negative delay counts as 0. *)
Definition timeout (d : Z) : Z :=
  if (2147483647 <? d)%Z then 1 else Z.max 0 d.

(** [setTimeout(callback, delay)] *)
Definition setTimeout (h : Host) (k : string) (v : T) (d : Z) : positive * Host :=
  (nextId h,
   {| now := now h;
      timers := timers h ++ [{| timer_id := nextId h; due := now h + timeout d;
                                cb_key := k; cb_value := v |}];
      nextId := Pos.succ (nextId h);
      items := items h; writes := writes h; console := console h |}).

(** [clearTimeout(id)] *)
Definition clearTimeout (h : Host) (i : positive) : Host :=
  {| now := now h;
     timers := filter (λ tm, timer_id tm ≠ i) (timers h);
     nextId := nextId h;
     items := items h; writes := writes h; console := console h |}.

(** [if (timeoutRef.current) clearTimeout(timeoutRef.current)] *)
Definition clearPending (w : World) : World :=
  match timeoutRef w.2 with
  | Some i => (clearTimeout w.1 i, w.2)
  | None => w
  end.

(** The body of the effect. *)
Definition effect (w : World) : World :=
  let w := clearPending w in
  let '(i, h) := setTimeout w.1 (key w.2) (storedValue w.2) (delay w.2) in
  (h, {| key := key w.2; delay := delay w.2;
         storedValue := storedValue w.2; timeoutRef := Some i |}).

(** The cleanup the effect returns. *)
Definition cleanup (w : World) : World := clearPending w.

(** First render: the effect runs once. *)
Definition mount (w : World) : World := effect w.

(** A render in which [storedValue] changed: cleanup of the previous effect,
    then the effect again. *)
Definition rerender (v : T) (w : World) : World :=
  effect (cleanup (w.1, {| key := key w.2; delay := delay w.2;
                           storedValue := v; timeoutRef := timeoutRef w.2 |})).

(** [setStoredValue(value)]: React skips the render, and with it the effect,
    when the value is the one it already holds. *)
Definition setStoredValue (v : T) (w : World) : World :=
  if same v (storedValue w.2) then w else rerender v w.

(** The timer callback: the write inside [try], [console.error] in
    [catch]. *)
Definition callback (tm : Timer) (h : Host) : Host :=
  match stringify (cb_value tm) with
  | None =>
      {| now := now h; timers := timers h; nextId := nextId h;
         items := items h; writes := writes h;
         console := console h ++ [WriteError (cb_key tm)] |}
  | Some payload =>
      match setItem quota (items h) (cb_key tm) payload with
      | Some items' =>
          {| now := now h; timers := timers h; nextId := nextId h;
             items := items';
             writes := writes h ++ [{| w_time := now h; w_key := cb_key tm;
                                       w_payload := payload; w_stored := true |}];
             console := console h ++ [Saved (cb_key tm)] |}
      | None =>
          {| now := now h; timers := timers h; nextId := nextId h;
             items := items h;
             writes := writes h ++ [{| w_time := now h; w_key := cb_key tm;
                                       w_payload := payload; w_stored := false |}];
             console := console h ++ [WriteError (cb_key tm)] |}
      end
  end.

(** The timer that is due first; among equals the one set first. *)
Definition earliest (ts : list Timer) : option Timer :=
  foldr (λ tm acc,
           match acc with
           | Some tm' => if (due tm <=? due tm')%Z then Some tm else Some tm'
           | None => Some tm
           end) None ts.

(** The host runs a timer: the clock is at its due time, the timer is gone,
    the callback runs. *)
Definition fire (tm : Timer) (h : Host) : Host :=
  callback tm
    {| now := Z.max (now h) (due tm);
       timers := filter (λ tm', timer_id tm' ≠ timer_id tm) (timers h);
       nextId := nextId h;
       items := items h; writes := writes h; console := console h |}.

Fixpoint runTimers (fuel : nat) (t : Z) (h : Host) : Host :=
  match fuel with
  | O => h
  | S fuel' =>
      match earliest (timers h) with
      | Some tm => if (due tm <=? t)%Z then runTimers fuel' t (fire tm h) else h
      | None => h
      end
  end.

(** Time passes until [t]: every timer due by then runs, in order. The
    callbacks set no timers, so each pending timer runs at most once. *)
Definition advance (t : Z) (w : World) : World :=
  let h := runTimers (length (timers w.1)) t w.1 in
  ({| now := Z.max (now h) t; timers := timers h; nextId := nextId h;
      items := items h; writes := writes h; console := console h |}, w.2).

(** A value update at time [t]. *)
Definition update (w : World) (u : Z * T) : World :=
  setStoredValue u.2 (advance u.1 w).

(** A sequence of value updates, each with its time. *)
Definition updates (us : list (Z * T)) (w : World) : World :=
  foldl update w us.

(** The hook before its first render, on a fresh host. [initialValue]
    stands for what the state initialiser returns: the stored item when it
    parses, else the argument of the hook. *)
Definition init (k : string) (initialValue : T) (d : Z) : World :=
  ({| now := 0; timers := []; nextId := 1%positive; items := ∅;
      writes := []; console := [] |},
   {| key := k; delay := d; storedValue := initialValue; timeoutRef := None |}).

(** Each update comes at or after the previous one and less than [d]
    after it. *)
Fixpoint spaced (d : Z) (t : Z) (us : list (Z * T)) : Prop :=
  match us with
  | [] => True
  | u :: us' => (t ≤ u.1 < t + d)%Z ∧ spaced d u.1 us'
  end.

(** Each update changes the value held. *)
Fixpoint changing (v : T) (us : list (Z * T)) : Prop :=
  match us with
  | [] => True
  | u :: us' => same u.2 v = false ∧ changing u.2 us'
  end.

(** ** One pending timer *)

(** Nothing is pending. *)
Definition quiet (w : World) : Prop := timers w.1 = [].

(** Exactly the timer of the hook is pending: due at [t], holding [v]. *)
Definition armed (w : World) (t : Z) (v : T) : Prop :=
  ∃ i, timers w.1 = [{| timer_id := i; due := t;
                        cb_key := key w.2; cb_value := v |}]
       ∧ timeoutRef w.2 = Some i.

(** No timer is pending, or the one timer of the hook is, due now or
    later. *)
Definition rested (w : World) : Prop :=
  quiet w ∨ ∃ td v, armed w td v ∧ (now w.1 ≤ td)%Z.

(** At time [t] nothing of the hook is due: no timer is pending, or its one
    timer is due later than [t]. *)
Definition settled (w : World) (t : Z) : Prop :=
  quiet w ∨ ∃ td v, armed w td v ∧ (t < td)%Z.

(** The store, the console and the arguments of the hook are those of [w]. *)
Definition unwritten (w w' : World) : Prop :=
  writes w'.1 = writes w.1 ∧ items w'.1 = items w.1 ∧
  console w'.1 = console w.1 ∧ key w'.2 = key w.2 ∧ delay w'.2 = delay w.2.

(** What can happen to the hook: its first render, a call of the setter,
    time passing. *)
Inductive reachable : World → Prop :=
| reach_init k initialValue d : reachable (mount (init k initialValue d))
| reach_set w v : reachable w → reachable (setStoredValue v w)
| reach_advance w t : reachable w → reachable (advance t w).

(** The last update of a sequence that starts with [u]. *)
Definition final (u : Z * T) (us : list (Z * T)) : Z * T :=
  foldl (λ _ u', u') u us.


(** ** The state initialiser *)

(** [JSON.parse]; [None] when it throws. *)
Variable parse : string → option T.

(** The initialiser of [useState]: the stored item when there is one, it is
    not empty and it parses, else [initialValue]. The flag tells whether the
    [catch] branch ran and [console.error] was called. *)
Definition initialState (items : gmap string string) (k : string)
    (initialValue : T) : T * bool :=
  match items !! k with
  | Some item =>
      if bool_decide (item = "") then (initialValue, false)
      else
        match parse item with
        | Some v => (v, false)
        | None => (initialValue, true)
        end
  | None => (initialValue, false)
  end.

(** A new instance of the hook on a host, before its first effect. *)
Definition useDebouncedLocalStorage (h : Host) (k : string)
    (initialValue : T) (d : Z) : World :=
  (h, {| key := k; delay := d;
         storedValue := (initialState (items h) k initialValue).1;
         timeoutRef := None |}).

End Hook.

(** ** Sample runs *)

(** [useDebouncedLocalStorage('spaces', 0, 1000)] on a fresh host. *)
Definition spaces : World := init "spaces" 0 1000.



End DebouncedStorage.

(** ** LocalStorageQueue  ([hooks/useLocalStorageQueue.ts]) *)

Module StorageQueue.
Import LocalStorage.

Inductive Priority : Type := high | normal | low.

(** [const priorityOrder = { high: 0, normal: 1, low: 2 }] *)
Definition priorityOrder (p : Priority) : Z :=
  match p with
  | high => 0
  | normal => 1
  | low => 2
  end.


Global Instance Priority_eq_dec : EqDecision Priority.
Proof. solve_decision. Defined.

(** How the awaited promise of [process] can settle. *)
Inductive Settled : Type := Resolved | Rejected.

Section Queue.

(** The type of the values ([any] in the source). *)
Context {V : Type}.

(** [JSON.stringify]; [None] when it throws. *)
Variable stringify : V → option string.
Variable quota : gmap string string → string → string → bool.

Record QueueItem : Type := {
  key : string;
  value : V;
  priority : Priority
}.

(** The object, the callback it has scheduled with the host, and what the
    store and the console have seen. [scheduled] is the item the idle
    callback (or the zero-delay timer) closes over while it has not run. *)
Record LocalStorageQueue : Type := {
  queue : list QueueItem;
  processing : bool;
  scheduled : option QueueItem;
  items : gmap string string;
  flushes : list (QueueItem * bool);
  console : list string
}.

Definition new : LocalStorageQueue :=
  {| queue := []; processing := false; scheduled := None;
     items := ∅; flushes := []; console := [] |}.

(** [Array.prototype.sort] with the comparator
    [priorityOrder[a.priority] - priorityOrder[b.priority]]. The sort is
    stable: an item goes before the first one of a later or equal rank that
    followed it. *)
Fixpoint insertSorted (x : QueueItem) (l : list QueueItem) : list QueueItem :=
  match l with
  | [] => [x]
  | y :: l' =>
      if (priorityOrder (priority x) <=? priorityOrder (priority y))%Z
      then x :: y :: l'
      else y :: insertSorted x l'
  end.

Definition sortByPriority (l : list QueueItem) : list QueueItem :=
  foldr insertSorted [] l.

(** The loop of [process] up to its next [await]: with an item left, it is
    shifted off the queue and its write is scheduled for idle time; with
    none left, [processing] is reset. *)
Definition processLoop (this : LocalStorageQueue) : LocalStorageQueue :=
  match queue this with
  | item :: rest =>
      {| queue := rest; processing := processing this;
         scheduled := Some item;
         items := items this; flushes := flushes this;
         console := console this |}
  | [] =>
      {| queue := []; processing := false;
         scheduled := scheduled this;
         items := items this; flushes := flushes this;
         console := console this |}
  end.

(** [process()], from the call to the first [await]. *)
Definition process (this : LocalStorageQueue) : LocalStorageQueue :=
  processLoop
    {| queue := queue this; processing := true;
       scheduled := scheduled this;
       items := items this; flushes := flushes this;
       console := console this |}.

(** [process] after its [await]: a rejection is caught and logged, then the
    loop goes on. *)
Definition resume (item : QueueItem) (outcome : Settled)
    (this : LocalStorageQueue) : LocalStorageQueue :=
  match outcome with
  | Resolved => processLoop this
  | Rejected =>
      processLoop
        {| queue := queue this; processing := processing this;
           scheduled := scheduled this;
           items := items this; flushes := flushes this;
           console := console this ++
                      ["Failed to write " +:+ key item +:+ " to localStorage:"] |}
  end.

(** [add(key, value, priority)] *)
Definition add (k : string) (v : V) (p : Priority)
    (this : LocalStorageQueue) : LocalStorageQueue :=
  let q := filter (λ item, key item ≠ k) (queue this) in
  let q := q ++ [{| key := k; value := v; priority := p |}] in
  let q := sortByPriority q in
  let this :=
    {| queue := q; processing := processing this;
       scheduled := scheduled this;
       items := items this; flushes := flushes this;
       console := console this |} in
  if processing this then this else process this.

(** [localStorage.setItem(item.key, JSON.stringify(item.value))]: the new
    content of the store, or [None] when either call throws. *)
Definition write (item : QueueItem) (this : LocalStorageQueue)
    : option (gmap string string) :=
  payload ← stringify (value item);
  setItem quota (items this) (key item) payload.

(** The scheduled callback runs:
    [localStorage.setItem(item.key, JSON.stringify(item.value)); resolve()].
    When the write throws, the exception leaves the callback, [resolve] is
    not called, and the promise [process] awaits never settles: [process]
    is not resumed. *)
Definition idle (this : LocalStorageQueue) : LocalStorageQueue :=
  match scheduled this with
  | None => this
  | Some item =>
      match write item this with
      | Some items' =>
          resume item Resolved
            {| queue := queue this; processing := processing this;
               scheduled := None;
               items := items';
               flushes := flushes this ++ [(item, true)];
               console := console this |}
      | None =>
          {| queue := queue this; processing := processing this;
             scheduled := None;
             items := items this;
             flushes := flushes this ++ [(item, false)];
             console := console this |}
      end
  end.

(** What happens to the queue: a call of [add], or the host running the
    scheduled callback. *)
Inductive Event : Type :=
| Add (k : string) (v : V) (p : Priority)
| Idle.

Definition step (this : LocalStorageQueue) (e : Event) : LocalStorageQueue :=
  match e with
  | Add k v p => add k v p this
  | Idle => idle this
  end.

Definition run (events : list Event) (this : LocalStorageQueue)
    : LocalStorageQueue :=
  foldl step this events.

(** The writes of [k] waiting in the queue or scheduled. *)
Definition pendingOf (k : string) (this : LocalStorageQueue) : nat :=
  length (filter (λ item, key item = k) (queue this)) +
  match scheduled this with
  | Some item => if decide (key item = k) then 1 else 0
  | None => 0
  end.

(** The flushes of [k] attempted so far. *)
Definition flushedOf (k : string) (this : LocalStorageQueue) : nat :=
  length (filter (λ f, key f.1 = k) (flushes this)).

(** The calls of [add] for [k] among the events. *)
Definition addsKey (k : string) (e : Event) : bool :=
  match e with
  | Add k' _ _ => bool_decide (k' = k)
  | Idle => false
  end.

Definition addedOf (k : string) (events : list Event) : nat :=
  length (filter (λ e, addsKey k e = true) events).

(** The queue of [add] before [process] looks at it. *)
Definition enqueued (k : string) (v : V) (p : Priority)
    (q : list QueueItem) : list QueueItem :=
  sortByPriority
    (filter (λ item, key item ≠ k) q ++ [{| key := k; value := v; priority := p |}]).

(** The items of [k] in a queue. *)
Definition queuedOf (k : string) (q : list QueueItem) : nat :=
  length (filter (λ item, key item = k) q).


(** [a] is flushed no later than [b] as far as priority goes. *)
Definition byPriority (a b : QueueItem) : Prop :=
  (priorityOrder (priority a) ≤ priorityOrder (priority b))%Z.


(** The value of the last call of [add] for [k] among the events, after
    [acc]. *)
Definition lastAddedFrom (acc : option V) (k : string) (events : list Event)
    : option V :=
  foldl (λ acc e,
           match e with
           | Add k' v _ => if decide (k' = k) then Some v else acc
           | Idle => acc
           end) acc events.

Definition lastAdded (k : string) (events : list Event) : option V :=
  lastAddedFrom None k events.

(** Where the latest value [v] of the key [k] is: waiting in the queue;
    or scheduled, with no write of [k] behind it; or in the store, with no
    write of [k] waiting. *)
Definition latest (k : string) (v : V) (this : LocalStorageQueue) : Prop :=
  (∃ item, item ∈ queue this ∧ key item = k ∧ value item = v) ∨
  ((∀ item, item ∈ queue this → key item ≠ k) ∧
   ((∃ item, scheduled this = Some item ∧ key item = k ∧ value item = v) ∨
    ((∀ item, scheduled this = Some item → key item ≠ k) ∧
     items this !! k = stringify v))).

(** A write is scheduled and [processing] is set, or nothing is waiting. *)
Definition working (this : LocalStorageQueue) : Prop :=
  processing this = false ∨ scheduled this = None →
  queue this = [] ∧ scheduled this = None ∧ processing this = false.

End Queue.

End StorageQueue.


(** ** compressedStorage  ([lib/storage/compressedStorage.ts]) *)

Module CompressedStorage.

Section Compressed.

(** The type of the values ([any] in the source, [null] included). *)
Context {V : Type}.

(** [JSON.stringify] and [JSON.parse]; [None] when they throw. *)
Variable stringify : V → option string.
Variable parse : string → option V.
(** [LZString.compress], and [LZString.decompress], whose [None] is the
    result [null]. *)
Variable compress : string → string.
Variable decompress : string → option string.
Variable quota : gmap string string → string → string → bool.

(** The store and the lines of [console.error]. *)
Record Store : Type := {
  items : gmap string string;
  errors : list string
}.

(** [setItem(key, value)]: the compressed JSON is stored; a failure is
    logged and swallowed. *)
Definition setItem (key : string) (value : V) (st : Store) : Store :=
  let failed :=
    {| items := items st;
       errors := errors st ++ ["Failed to compress and store:"] |} in
  match stringify value with
  | Some json =>
      let compressed := compress json in
      match LocalStorage.setItem quota (items st) key compressed with
      | Some items' => {| items := items'; errors := errors st |}
      | None => failed
      end
  | None => failed
  end.

(** [getItem(key)]: [None] is the result [null]. An empty string is falsy
    like a missing item. *)
Definition getItem (key : string) (st : Store) : option V * Store :=
  match items st !! key with
  | None => (None, st)
  | Some compressed =>
      if bool_decide (compressed = "") then (None, st)
      else
        match decompress compressed with
        | None => (None, st)
        | Some decompressed =>
            if bool_decide (decompressed = "") then (None, st)
            else
              match parse decompressed with
              | Some v => (Some v, st)
              | None =>
                  (None, {| items := items st;
                            errors := errors st ++ ["Failed to decompress:"] |})
              end
        end
  end.

(** [removeItem(key)] *)
Definition removeItem (key : string) (st : Store) : Store :=
  {| items := delete key (items st); errors := errors st |}.

End Compressed.

(** A sample compression: a mark in front of the text. *)
Definition mark (s : string) : string := String "#" s.
Definition unmark (s : string) : option string :=
  match s with
  | String "#" s' => Some s'
  | _ => None
  end.

End CompressedStorage.

(** ** IndexedDBService, the migration and the clean-up
       ([lib/storage/indexedDB.ts], [lib/storage/migrate.ts],
       [lib/storage/quotaMonitor.ts]) *)

Module IndexedDB.

Section Service.

(** The fields of a space other than [id] and [updatedAt], and the values
    of the two other object stores. *)
Context {B N J : Type}.

Record Space : Type := {
  id : string;
  body : B;
  updatedAt : Z
}.

(** The three object stores of ['openbook-db'], each keyed by [id]. *)
Record Database : Type := {
  spaces : gmap string Space;
  notebooks : gmap string N;
  journal : gmap string J
}.

(** [init()]: the database is opened; on the first use [upgrade] creates
    the object stores, empty. [None] is the browser without the database. *)
Definition init (b : option Database) : Database :=
  match b with
  | Some d => d
  | None => {| spaces := ∅; notebooks := ∅; journal := ∅ |}
  end.

(** [{ ...space, updatedAt: Date.now() }] *)
Definition stamp (now : Z) (space : Space) : Space :=
  {| id := id space; body := body space; updatedAt := now |}.

(** [saveSpace(space)]: [db.put] under the key path [id]. *)
Definition saveSpace (now : Z) (space : Space) (b : option Database)
    : option Database :=
  let d := init b in
  Some {| spaces := <[id space := stamp now space]> (spaces d);
          notebooks := notebooks d; journal := journal d |}.

(** [getSpace(id)]; [None] is [undefined]. *)
Definition getSpace (i : string) (b : option Database) : option Space :=
  spaces (init b) !! i.

(** [getSpaces()]: the values of the store. IndexedDB returns them by
    ascending key; the order is left to the map here. *)
Definition getSpaces (b : option Database) : list Space :=
  (map_to_list (spaces (init b))).*2.

(** [deleteSpace(id)] *)
Definition deleteSpace (i : string) (b : option Database) : option Database :=
  let d := init b in
  Some {| spaces := delete i (spaces d);
          notebooks := notebooks d; journal := journal d |}.

(** [clearAll()] *)
Definition clearAll (b : option Database) : option Database :=
  Some {| spaces := ∅; notebooks := ∅; journal := ∅ |}.

(** [cleanupOldData(daysToKeep)] at the time [now]. *)
Definition cleanupOldData (daysToKeep : Z) (now : Z) (b : option Database)
    : option Database :=
  let cutoffDate := (now - daysToKeep * 24 * 60 * 60 * 1000)%Z in
  let all := getSpaces b in
  let oldSpaces := filter (λ space, (updatedAt space < cutoffDate)%Z) all in
  if (0 <? length oldSpaces)%nat
  then foldl (λ b' space, deleteSpace (id space) b') (Some (init b)) oldSpaces
  else Some (init b).

(** ** The migration *)

(** [JSON.parse] of the ['spaces'] item: [None] when it throws or the
    result has no [map]; an element is [None] when [db.put] refuses it (a
    value without an [id]). *)
Variable parseSpaces : string → option (list (option Space)).
(** Whether [JSON.parse] accepts a string. *)
Variable validJson : string → bool.
Variable quota : gmap string string → string → string → bool.

Definition migrationKey : string := "indexeddb-migration-complete".

(** How [migrateLocalStorageToIndexedDB] ends: it returns, or it rethrows
    what it caught. *)
Inductive Outcome : Type := Returned | Threw.

(** An item of localStorage that is there and not empty. *)
Definition present (ls : gmap string string) (k : string) : option string :=
  match ls !! k with
  | Some data => if bool_decide (data = "") then None else Some data
  | None => None
  end.

(** One [saveSpace] of [Promise.all]: the database is opened, then the put
    succeeds or fails. *)
Definition saveParsed (now : Z) (acc : option Database * bool)
    (x : option Space) : option Database * bool :=
  match x with
  | Some space => (saveSpace now space acc.1, acc.2)
  | None => (Some (init acc.1), false)
  end.

(** [migrateLocalStorageToIndexedDB()] at the time [now]. *)
Definition migrate (now : Z) (ls : gmap string string) (b : option Database)
    : gmap string string * option Database * Outcome :=
  if bool_decide (ls !! migrationKey = Some "true") then (ls, b, Returned)
  else
    let '(b1, ok1) :=
      match present ls "spaces" with
      | Some data =>
          match parseSpaces data with
          | Some xs => foldl (saveParsed now) (b, true) xs
          | None => (b, false)
          end
      | None => (b, true)
      end in
    let ok2 :=
      match present ls "notebooks" with
      | Some data => validJson data
      | None => true
      end in
    let ok3 :=
      match present ls "journal" with
      | Some data => validJson data
      | None => true
      end in
    if ok1 && ok2 && ok3 then
      match LocalStorage.setItem quota ls migrationKey "true" with
      | Some ls' => (ls', b1, Returned)
      | None => (ls, b1, Threw)
      end
    else (ls, b1, Threw).

(** Every space is stored under its own id, as [put] with a key path
    does. *)
Definition keyed (b : option Database) : Prop :=
  ∀ k space, spaces (init b) !! k = Some space → id space = k.

End Service.


(** ** Samples *)

(** Two spaces whose other fields are a name. *)
Definition stale : @Space string :=
  {| id := "s1"; body := "Algebra"; updatedAt := 10 |}.
Definition recent : @Space string :=
  {| id := "s2"; body := "Biology"; updatedAt := 20 |}.

(** A browser in which the database has never been opened. *)
Definition fresh : option (@Database string string string) := None.

(** A parser that knows two texts: ["two"] is the array of the two samples,
    ["bad"] does not parse. *)
Definition sampleSpaces (data : string) : option (list (option (@Space string))) :=
  if bool_decide (data = "bad") then None else Some [Some stale; Some recent].
Definition sampleJson (data : string) : bool :=
  negb (bool_decide (data = "bad")).


End IndexedDB.

(* ===================================================================== *)
(** * Part II: what the program does *)
(* ===================================================================== *)

(** ** Numbers *)

Module JsFacts.
Import Js.

Lemma zero_spec : Prim2SF 0%float = S754_zero false.
Proof. reflexivity. Qed.

(** A number below zero is neither zero nor [NaN]. *)
Lemma negative_truthy (h : number) : (h <? 0)%float = true → truthy h = true.
Proof.
  unfold truthy, is_nan.
  rewrite FloatAxioms.ltb_spec, !FloatAxioms.eqb_spec, zero_spec.
  unfold SFltb, SFeqb.
  destruct (Prim2SF h) as [s|s| |s m e]; simpl; try discriminate;
    destruct s; simpl; try discriminate; intros _.
  - reflexivity.
  - now rewrite Pos.compare_cont_refl, Z.compare_refl.
Qed.

(** Exactly the zeros and [NaN] are falsy. *)
Lemma zero_falsy (h : number) : (h =? 0)%float = true → truthy h = false.
Proof. unfold truthy. now intros ->. Qed.

Lemma SFcompare_antisym (x y : spec_float) :
  SFcompare y x = option_map CompOpp (SFcompare x y).
Proof.
  destruct x as [s1|s1| |s1 m1 e1], y as [s2|s2| |s2 m2 e2];
    try destruct s1; try destruct s2; simpl; try reflexivity;
    rewrite (Z.compare_antisym e1 e2);
    destruct (e1 ?= e2)%Z; simpl; try reflexivity;
    change (Pos.compare_cont Eq m2 m1) with (m2 ?= m1)%positive;
    change (Pos.compare_cont Eq m1 m2) with (m1 ?= m2)%positive;
    rewrite (Pos.compare_antisym m1 m2);
    destruct (m1 ?= m2)%positive; reflexivity.
Qed.

(** [<] on numbers is asymmetric. *)
Lemma ltb_asym (x y : number) : (x <? y)%float = true → (y <? x)%float = false.
Proof.
  rewrite !FloatAxioms.ltb_spec. unfold SFltb.
  rewrite (SFcompare_antisym (Prim2SF x) (Prim2SF y)).
  destruct (SFcompare (Prim2SF x) (Prim2SF y)) as [[ | | ]|];
    simpl; intros; try reflexivity; discriminate.
Qed.

End JsFacts.

(** ** The height cache *)

Module HeightCacheFacts.
Import Js JsFacts HeightCache.

(** ** Basic facts *)

Lemma has_set_eq this i h : has (set this i h) i = true.
Proof.
  unfold has, set; simpl. apply bool_decide_eq_true.
  rewrite lookup_insert_eq. eauto.
Qed.

Lemma get_set_eq this i h :
  get (set this i h) i = if truthy h then h else defaultHeight.
Proof. unfold get, set; simpl. now rewrite lookup_insert_eq. Qed.

Lemma get_set_ne this i j h : i ≠ j → get (set this i h) j = get this j.
Proof. intros Hne. unfold get, set; simpl. now rewrite lookup_insert_ne. Qed.

Lemma estimate_recorded this message h :
  cache this !! id message = Some h →
  estimate this message = if truthy h then h else defaultHeight.
Proof.
  intros Hh.
  assert (Hhas : has this (id message) = true).
  { unfold has. apply bool_decide_eq_true. rewrite Hh. eauto. }
  unfold estimate. rewrite Hhas. unfold get. now rewrite Hh.
Qed.

Lemma has_unrecorded this i : cache this !! i = None → has this i = false.
Proof.
  intros Hn. unfold has. apply bool_decide_eq_false. rewrite Hn.
  intros [x Hx]. discriminate.
Qed.

(** A non-positive number is below zero or equal to zero. *)
Lemma nonpositive_cases (h : number) :
  (h <=? 0)%float = true → (h <? 0)%float = false → (h =? 0)%float = true.
Proof.
  rewrite FloatAxioms.leb_spec, FloatAxioms.ltb_spec, FloatAxioms.eqb_spec, zero_spec.
  unfold SFleb, SFltb, SFeqb.
  destruct (SFcompare (Prim2SF h) (S754_zero false)) as [[ | | ]|];
    intros; try reflexivity; discriminate.
Qed.

(** ** The estimation policy *)

(** C5 (counterexample): a recorded height of 0 is present in the cache, yet
    the lookup of the item answers the flat default 200, which is neither the
    recorded height nor the content-based estimate (950 for this message). *)
Lemma zero_height_hides_estimate :
  let this := set new "m1" 0%float in
  let message := rich "m1" 1200 in
  cache this !! id message = Some 0%float ∧
  estimate this message = 200%float ∧
  estimate new message = 950%float ∧
  (0 =? 200)%float = false ∧ (950 =? 200)%float = false.
Proof. vm_compute. repeat split; reflexivity. Qed.

(** C5 (amended): [estimate], the lookup that takes the item, is a total
    function; it answers the recorded height when one is present and truthy
    (non-zero and not NaN), the default 200 when the recorded value is falsy,
    and otherwise 200 plus 100 for a content over 500 characters, plus 200
    more over 1000 characters, plus 150 for a fenced code marker, plus 300
    for an image part. *)
Theorem estimate_policy (this : MessageHeightCache) (message : Message) :
  estimate this message =
  match cache this !! id message with
  | Some h => if truthy h then h else 200%float
  | None =>
      (200
       + (if (500 <? contentLength message)%nat then 100 else 0)
       + (if (1000 <? contentLength message)%nat then 200 else 0)
       + (if hasCode message then 150 else 0)
       + (if hasImages message then 300 else 0))%float
  end.
Proof.
  destruct (cache this !! id message) as [h|] eqn:Hc.
  - now apply estimate_recorded.
  - unfold estimate. rewrite (has_unrecorded _ _ Hc).
    destruct (500 <? contentLength message)%nat,
             (1000 <? contentLength message)%nat,
             (hasCode message), (hasImages message); reflexivity.
Qed.

(** ** Recording a height *)

(** C6 (counterexample): recording -5 changes the answer from the default 200
    (or from the measured 300) to -5, and recording 0 over a measured 300
    changes the answer to 200. *)
Lemma nonsensical_height_changes_answer :
  get new "m1" = 200%float ∧
  get (set new "m1" (-5)%float) "m1" = (-5)%float ∧
  get (set new "m1" 300%float) "m1" = 300%float ∧
  get (set (set new "m1" 300%float) "m1" (-5)%float) "m1" = (-5)%float ∧
  get (set (set new "m1" 300%float) "m1" 0%float) "m1" = 200%float ∧
  (-5 =? 200)%float = false ∧ (-5 =? 300)%float = false ∧
  (200 =? 300)%float = false.
Proof. vm_compute. repeat split; reflexivity. Qed.

(** C6 (amended): a zero or negative height is not ignored. [set] stores it
    unconditionally in place of whatever was recorded before; afterwards
    [get] answers a negative height as it is, and the default 200 for a zero
    height. [set] is total: nothing is propagated to the caller. *)
Theorem nonsensical_height_is_recorded
    (this : MessageHeightCache) (messageId : string) (height : number) :
  (height <=? 0)%float = true →
  cache (set this messageId height) !! messageId = Some height ∧
  get (set this messageId height) messageId =
    (if (height <? 0)%float then height else 200%float).
Proof.
  intros Hle. split.
  - unfold set; simpl. apply lookup_insert_eq.
  - rewrite get_set_eq.
    destruct (height <? 0)%float eqn:Hlt.
    + now rewrite negative_truthy.
    + now rewrite zero_falsy by now apply nonpositive_cases.
Qed.

(** Recording -5 over a measured 300. *)
Lemma nonsensical_height_is_recorded_witness :
  cache (set (set new "m1" 300%float) "m1" (-5)%float) !! "m1" = Some (-5)%float ∧
  get (set (set new "m1" 300%float) "m1" (-5)%float) "m1" =
    (if (-5 <? 0)%float then (-5)%float else 200%float).
Proof.
  apply (nonsensical_height_is_recorded (set new "m1" 300%float) "m1" (-5)%float).
  reflexivity.
Defined.

(** C10 (counterexample): NaN is a number other than zero, and after
    recording it [get] answers 200, which is not NaN. *)
Lemma nan_height_reads_default :
  (nan =? 0)%float = false ∧
  get (set new "m1" nan) "m1" = 200%float ∧
  is_nan nan = true ∧ is_nan 200%float = false.
Proof. vm_compute. repeat split; reflexivity. Qed.

(** C10 (amended): after [set(id, h)], [get(id)] answers [h] when [h] is
    neither zero nor NaN, negative heights included, and the default 200 when
    [h] is zero (of either sign) or NaN. *)
Theorem get_after_set
    (this : MessageHeightCache) (messageId : string) (height : number) :
  get (set this messageId height) messageId =
    (if ((height =? 0)%float || is_nan height) then 200%float else height).
Proof.
  rewrite get_set_eq. unfold truthy.
  now destruct ((height =? 0)%float || is_nan height).
Qed.

(** ** Content changes *)

(** C7 (counterexample): the height 250 measured for the message ["m1"] is
    still the answer after its content has grown to 1200 characters with a
    code fence and an image, for which the recomputed estimate would be
    950. *)
Lemma content_change_keeps_stale_height :
  let this := set new "m1" 250%float in
  estimate this (plain "m1" 10) = 250%float ∧
  estimate this (rich "m1" 1200) = 250%float ∧
  estimate new (rich "m1" 1200) = 950%float ∧
  (250 =? 950)%float = false.
Proof. vm_compute. repeat split; reflexivity. Qed.

(** C7 (amended): the cache is keyed by the message id alone. A recorded
    height stays the answer for that id whatever the content becomes, until
    another height is recorded for the id, which replaces it. *)
Theorem measured_height_keyed_by_id
    (this : MessageHeightCache) (before after : Message) (h h' : number) :
  id after = id before →
  estimate (set this (id before) h) after
    = estimate (set this (id before) h) before ∧
  estimate (set (set this (id before) h) (id before) h') after
    = get (set this (id before) h') (id before).
Proof.
  intros Hid.
  assert (Hl : ∀ c x, cache (set c (id before) x) !! id before = Some x)
    by (intros; apply lookup_insert_eq).
  split.
  - rewrite (estimate_recorded _ before h) by apply Hl.
    apply estimate_recorded. rewrite Hid. apply Hl.
  - rewrite (estimate_recorded _ after h') by (rewrite Hid; apply Hl).
    now rewrite get_set_eq.
Qed.

(** The message ["m1"] before and after its content grew. *)
Lemma measured_height_keyed_by_id_witness :
  estimate (set new "m1" 250%float) (rich "m1" 1200)
    = estimate (set new "m1" 250%float) (plain "m1" 10) ∧
  estimate (set (set new "m1" 250%float) "m1" 900%float) (rich "m1" 1200)
    = get (set new "m1" 900%float) "m1".
Proof.
  apply (measured_height_keyed_by_id new (plain "m1" 10) (rich "m1" 1200)
           250%float 900%float).
  reflexivity.
Defined.


(** ** Bounds and independence *)

(** X2: for a message without a recorded height the estimate lies between
    200 and 950, whatever its content and parts. *)
Theorem estimate_bounds (this : MessageHeightCache) (message : Message) :
  cache this !! id message = None →
  (200 <=? estimate this message)%float = true ∧
  (estimate this message <=? 950)%float = true.
Proof.
  intros Hc. rewrite estimate_policy, Hc.
  destruct (500 <? contentLength message)%nat,
           (1000 <? contentLength message)%nat,
           (hasCode message), (hasImages message); split; reflexivity.
Qed.

(** A long message with code and an image, in an empty cache. *)
Lemma estimate_bounds_witness :
  (200 <=? estimate new (rich "m1" 1200))%float = true ∧
  (estimate new (rich "m1" 1200) <=? 950)%float = true.
Proof. apply (estimate_bounds new (rich "m1" 1200)). reflexivity. Defined.

(** X3: recording a height for one message changes nothing for a message
    with another id: [has], [get] and [estimate] answer as before. *)
Theorem set_leaves_other_messages
    (this : MessageHeightCache) (messageId : string) (height : number)
    (message : Message) :
  id message ≠ messageId →
  has (set this messageId height) (id message) = has this (id message) ∧
  get (set this messageId height) (id message) = get this (id message) ∧
  estimate (set this messageId height) message = estimate this message.
Proof.
  intros Hne.
  assert (Hl : cache (set this messageId height) !! id message
               = cache this !! id message).
  { unfold set; simpl. now apply lookup_insert_ne. }
  split; [unfold has; now rewrite Hl|].
  split; [unfold get; now rewrite Hl|].
  rewrite !estimate_policy. now rewrite Hl.
Qed.

(** Recording a height for ["m2"] while ["m1"] is measured. *)
Lemma set_leaves_other_messages_witness :
  has (set (set new "m1" 250%float) "m2" 40%float) "m1"
    = has (set new "m1" 250%float) "m1" ∧
  get (set (set new "m1" 250%float) "m2" 40%float) "m1"
    = get (set new "m1" 250%float) "m1" ∧
  estimate (set (set new "m1" 250%float) "m2" 40%float) (plain "m1" 10)
    = estimate (set new "m1" 250%float) (plain "m1" 10).
Proof.
  apply (set_leaves_other_messages (set new "m1" 250%float) "m2" 40%float
           (plain "m1" 10)).
  discriminate.
Defined.

End HeightCacheFacts.

(** ** The virtual list *)

Module VirtualListFacts.
Import Js JsFacts VirtualList.

(** ** The auto-scroll effect *)

Lemma commit_deps props st :
  effectDeps (commit props st) = Some (length (messages props), isNearBottom st).
Proof.
  unfold commit. case_bool_decide as Hd; simpl; [exact Hd | reflexivity].
Qed.

Lemma commit_isNearBottom props st :
  isNearBottom (commit props st) = isNearBottom st.
Proof. unfold commit. now case_bool_decide. Qed.

Lemma commit_listRef props st : listRef (commit props st) = listRef st.
Proof. unfold commit. now case_bool_decide. Qed.

(** With unchanged dependencies the effect does not run again. *)
Lemma commit_at_rest props st :
  effectDeps st = Some (length (messages props), isNearBottom st) →
  commit props st = st.
Proof. intros Hd. unfold commit. now rewrite bool_decide_eq_true_2. Qed.

(** A scroll the component asked for itself leaves the instance as it is. *)
Lemma requested_scrolls_ignored props st (requested : list number) :
  effectDeps st = Some (length (messages props), isNearBottom st) →
  foldl (λ s o, onScroll props s o true) st requested = st.
Proof.
  intros Hd. induction requested as [|o os IH]; simpl; [reflexivity|].
  unfold onScroll at 2, handleScroll; simpl.
  now rewrite (commit_at_rest _ _ Hd).
Qed.

(** An appended message always reruns the effect. *)
Lemma commit_append props st message :
  effectDeps st = Some (length (messages props), isNearBottom st) →
  calls (commit (append props message) st)
  = calls st ++ autoScroll (append props message) st.
Proof.
  intros Hd. unfold commit.
  rewrite bool_decide_eq_false_2; [reflexivity|].
  rewrite Hd. simpl. rewrite length_app. simpl. intros [= Hlen]. lia.
Qed.

(** ** The mounted rows *)

(** The windower of §4.2 on scenario B of §8: a thousand items of 200 at
    scroll offset 50000 in a viewport of 800, overscan 5. *)
Example scenario_B_window :
  indices (computeWindow 1000 (λ _, 200%float) 50000%float 800%float 5)
  = seq 245 14.
Proof. vm_compute. reflexivity. Qed.

(** C8 (counterexample): thirty messages of which the last is streaming, a
    viewport of 800 at scroll offset 0: the window is [0 .. 8] and the
    streaming item, index 29, is not mounted. *)
Lemma streaming_item_outside_window :
  let props := {| messages := transcript 30; isStreaming := true;
                  currentMessageId := Some (repeat_char "m" 30) |} in
  let st := mount props 800%float in
  (row_isStreaming <$> Row props 29) = Some true ∧
  mountedIndices props st 0%float = [0; 1; 2; 3; 4; 5; 6; 7; 8] ∧
  existsb row_isStreaming (mounted props st 0%float) = false.
Proof. vm_compute. repeat split; reflexivity. Qed.

(** A mounted row is the row of an index of the range. *)
Lemma mountedBy_row {L : Type} (rangeOf : ListRange L) (inner : L)
    (props : Props) (st : Instance) (r : RowElement) :
  r ∈ mountedBy rangeOf inner props st ↔
  ∃ index message,
    index ∈ mountedIndicesBy rangeOf inner props st ∧
    messages props !! index = Some message ∧
    r = {| row_message := message;
           row_isLast := bool_decide (index = length (messages props) - 1);
           row_isStreaming :=
             isStreaming props &&
             bool_decide (currentMessageId props = Some (id message)) |}.
Proof.
  unfold mountedBy. rewrite list_elem_of_omap. unfold Row. split.
  - intros (index & Hin & Hrow).
    destruct (messages props !! index) as [message|] eqn:Hm; [|discriminate].
    simpl in Hrow. injection Hrow as <-. eauto.
  - intros (index & message & Hin & Hm & ->). exists index.
    split; [exact Hin|]. now rewrite Hm.
Qed.

(** C8 (amended): a streaming item gets no treatment of its own. Whatever
    range computation the list has, the indices it mounts are the same
    whether or not a message is streaming, and the row of the streaming
    message is in the DOM exactly when the list's range has its index: once
    the range leaves that index out, the streaming row is unmounted like any
    other. *)
Theorem streaming_row_not_sticky {L : Type}
    (rangeOf : ListRange L) (inner : L) (props : Props) (st : Instance)
    (index : nat) (message : Message) :
  NoDup (id <$> messages props) →
  messages props !! index = Some message →
  isStreaming props = true →
  currentMessageId props = Some (id message) →
  mountedIndicesBy rangeOf inner props st
  = mountedIndicesBy rangeOf inner
      {| messages := messages props; isStreaming := false;
         currentMessageId := None |} st ∧
  ((∃ r, r ∈ mountedBy rangeOf inner props st ∧ row_isStreaming r = true) ↔
   index ∈ mountedIndicesBy rangeOf inner props st) ∧
  (index ∉ mountedIndicesBy rangeOf inner props st →
   existsb row_isStreaming (mountedBy rangeOf inner props st) = false).
Proof.
  intros Hnd Hm Hstr Hcur.
  assert (Hiff : (∃ r, r ∈ mountedBy rangeOf inner props st ∧
                       row_isStreaming r = true) ↔
                 index ∈ mountedIndicesBy rangeOf inner props st).
  { split.
    - intros (r & Hr & Hs).
      apply mountedBy_row in Hr as (j & m & Hj & Hmj & ->). simpl in Hs.
      rewrite Hstr, Hcur in Hs. simpl in Hs.
      apply bool_decide_eq_true in Hs. injection Hs as Hid.
      assert (j = index) as ->; [|exact Hj].
      apply (NoDup_lookup (id <$> messages props) j index (id message)).
      + exact Hnd.
      + rewrite list_lookup_fmap, Hmj. simpl. now rewrite Hid.
      + now rewrite list_lookup_fmap, Hm.
    - intros Hin. eexists. split.
      + apply mountedBy_row. exists index, message. eauto.
      + simpl. rewrite Hstr, Hcur. simpl. now apply bool_decide_eq_true. }
  split; [reflexivity|]. split; [exact Hiff|].
  intros Hout.
  destruct (existsb row_isStreaming (mountedBy rangeOf inner props st)) eqn:He;
    [|reflexivity].
  exfalso. apply Hout, Hiff.
  apply existsb_exists in He as (r & Hr & Hs). exists r.
  split; [now apply list_elem_of_In|exact Hs].
Qed.

(** Thirty messages of which the last is streaming, under the windower of
    the spec at scroll offset 0 in a viewport of 800. *)
Lemma streaming_row_not_sticky_witness :
  let props := {| messages := transcript 30; isStreaming := true;
                  currentMessageId := Some (repeat_char "m" 30) |} in
  let st := mount props 800%float in
  mountedIndicesBy windowRange 0%float props st
  = mountedIndicesBy windowRange 0%float
      {| messages := messages props; isStreaming := false;
         currentMessageId := None |} st ∧
  ((∃ r, r ∈ mountedBy windowRange 0%float props st ∧
         row_isStreaming r = true) ↔
   29 ∈ mountedIndicesBy windowRange 0%float props st) ∧
  (29 ∉ mountedIndicesBy windowRange 0%float props st →
   existsb row_isStreaming (mountedBy windowRange 0%float props st) = false).
Proof.
  intros props st.
  apply (streaming_row_not_sticky windowRange 0%float props st 29
           (plain (repeat_char "m" 30) 20)).
  - refine (bool_decide_unpack (NoDup (id <$> messages props)) _).
    vm_compute. exact I.
  - reflexivity.
  - reflexivity.
  - reflexivity.
Defined.

(** ** Following the bottom *)

(** Without a scroll of the user's own the flag, the dependencies of the
    effect and the ref stay as they are. *)
Lemma passive_keeps props st e :
  effectDeps st = Some (length (messages props), isNearBottom st) →
  isNearBottom (passive props st e) = isNearBottom st ∧
  effectDeps (passive props st e) = effectDeps st ∧
  listRef (passive props st e) = listRef st.
Proof.
  intros Hd. destruct e as [scrollOffset|index size]; simpl.
  - unfold onScroll, handleScroll; simpl. now rewrite (commit_at_rest _ _ Hd).
  - unfold setRowHeight.
    now destruct (strict_neq (rowHeights st !! index) size).
Qed.

Lemma passives_keep props (between : list Passive) : ∀ st,
  effectDeps st = Some (length (messages props), isNearBottom st) →
  isNearBottom (foldl (passive props) st between) = isNearBottom st ∧
  effectDeps (foldl (passive props) st between) = effectDeps st ∧
  listRef (foldl (passive props) st between) = listRef st.
Proof.
  induction between as [|e between IH]; intros st Hd; [now repeat split|].
  simpl. destruct (passive_keeps props st e Hd) as (Hn & He & Hl).
  destruct (IH (passive props st e)) as (Hn' & He' & Hl').
  { now rewrite He, Hn. }
  repeat split; congruence.
Qed.

(** What an appended message makes of a state at rest. *)
Lemma append_at_rest props st message :
  effectDeps st = Some (length (messages props), isNearBottom st) →
  calls (onProps (append props message) st)
  = calls st ++
    (if isNearBottom st then
       match listRef st with
       | Some _ => [scrollToItem (length (messages props)) AlignEnd]
       | None => []
       end
     else []) ∧
  isNearBottom (onProps (append props message) st) = isNearBottom st.
Proof.
  intros Hd. unfold onProps. split; [|apply commit_isNearBottom].
  rewrite (commit_append _ _ _ Hd). f_equal. unfold autoScroll.
  assert (Hlen : (0 <? length (messages (append props message)))%nat = true).
  { apply Nat.ltb_lt. simpl. rewrite length_app. simpl. lia. }
  rewrite Hlen, andb_true_r.
  destruct (isNearBottom st); [|reflexivity].
  destruct (listRef st); [|reflexivity].
  simpl. rewrite length_app. simpl. do 2 f_equal. lia.
Qed.

(** C9 (amended): whether an appended message is followed is decided by
    the flag [isNearBottom], not by where the viewport is at the time of
    the append. A scroll of the user's own sets the flag to whether it left
    the bottom edge of the viewport less than 100 from the total height of
    the rows, as they were measured then and with a list height of 0 while
    the ref is unset; scrolls the component requested and row measurements
    leave the flag as it is. When the flag is set and the list is mounted,
    an appended message makes the list scroll to the new last item, aligned
    at its end; otherwise it triggers no call. *)
Theorem following_auto_scroll
    (props : Props) (st : Instance) (scrollOffset : number)
    (between : list Passive) (message : Message) :
  effectDeps st = Some (length (messages props), isNearBottom st) →
  let scrolled :=
    match listRef st with
    | Some _ => [scrollToItem (length (messages props)) AlignEnd]
    | None => []
    end in
  let follows (flag : bool) (st2 : Instance) :=
    calls (onProps (append props message) st2)
    = calls st2 ++ (if flag then scrolled else []) ∧
    isNearBottom (onProps (append props message) st2) = flag in
  follows (isNearBottom st) (foldl (passive props) st between) ∧
  follows (distanceFromBottom props st scrollOffset <? 100)%float
          (foldl (passive props) (onScroll props st scrollOffset false) between).
Proof.
  intros Hd scrolled follows.
  assert (Hgen : ∀ st1,
             effectDeps st1 = Some (length (messages props), isNearBottom st1) →
             listRef st1 = listRef st →
             follows (isNearBottom st1) (foldl (passive props) st1 between)).
  { intros st1 Hd1 Hl1.
    destruct (passives_keep props between st1 Hd1) as (Hn & He & Hl).
    destruct (append_at_rest props (foldl (passive props) st1 between) message)
      as [Hcalls Hflag].
    { now rewrite He, Hn. }
    unfold follows, scrolled. rewrite Hcalls, Hflag, Hn, Hl, Hl1. now split. }
  split; [now apply Hgen|].
  set (st1 := onScroll props st scrollOffset false).
  assert (Hnear : isNearBottom st1
                  = (distanceFromBottom props st scrollOffset <? 100)%float).
  { unfold st1, onScroll. now rewrite commit_isNearBottom. }
  rewrite <- Hnear. apply Hgen.
  - unfold st1, onScroll. now rewrite commit_deps, commit_isNearBottom.
  - unfold st1, onScroll. now rewrite commit_listRef.
Qed.

(** Thirty messages of 200 each in a viewport of 800. The list has just
    been mounted; or the user scrolls to 5150, which leaves the bottom 50
    away. Then row 3 is measured and a requested scroll is reported, and a
    message is appended. *)
Lemma following_auto_scroll_witness :
  let props := {| messages := transcript 30; isStreaming := false;
                  currentMessageId := None |} in
  let st := mount props 800%float in
  let between := [Measured 3 120%float; Requested 5200%float] in
  let unmoved := foldl (passive props) st between in
  let near := foldl (passive props) (onScroll props st 5150%float false) between in
  (calls (onProps (append props (plain "new" 20)) unmoved) = calls unmoved ∧
   isNearBottom (onProps (append props (plain "new" 20)) unmoved) = false) ∧
  (calls (onProps (append props (plain "new" 20)) near)
   = calls near ++ [scrollToItem 30 AlignEnd] ∧
   isNearBottom (onProps (append props (plain "new" 20)) near) = true).
Proof.
  intros props st between unmoved near.
  destruct (following_auto_scroll props st 5150%float between (plain "new" 20))
    as [[Hcalls Hflag] [Hcalls' Hflag']]; [reflexivity|].
  split; split.
  - exact (eq_trans Hcalls (app_nil_r (calls unmoved))).
  - exact Hflag.
  - exact Hcalls'.
  - exact Hflag'.
Defined.

(** C9 (counterexample): thirty messages of 200 each in a viewport of 800.
    The user scrolls away to 2000; a scroll the component requested then
    brings the viewport to 5200, its bottom edge on the end of the content.
    A message appended now is not followed: no call is made on the list.
    Nor is one appended to a transcript of a single message right after it
    was mounted, although the viewport shows the whole content. *)
Lemma viewport_at_bottom_not_followed :
  let props := {| messages := transcript 30; isStreaming := false;
                  currentMessageId := None |} in
  let away := onScroll props (mount props 800%float) 2000%float false in
  let back := onScroll props away 5200%float true in
  let single := {| messages := transcript 1; isStreaming := false;
                   currentMessageId := None |} in
  let shown := mount single 800%float in
  ((distanceFromBottom props back 5200%float <? 100)%float = true ∧
   calls (onProps (append props (plain "new" 20)) back) = calls back) ∧
  ((distanceFromBottom single shown 0%float <? 100)%float = true ∧
   calls (onProps (append single (plain "new" 20)) shown) = []).
Proof. vm_compute. repeat split; reflexivity. Qed.


(** ** Measuring rows *)

(** X4: measuring a row twice with the same size, other than NaN, changes
    nothing the second time: the size is stored once and the list is reset
    once. *)
Theorem setRowHeight_twice (st : Instance) (index : nat) (size : number) :
  is_nan size = false →
  setRowHeight (setRowHeight st index size) index size
  = setRowHeight st index size.
Proof.
  intros Hnan.
  assert (Heq : (size =? size)%float = true).
  { unfold is_nan in Hnan. now destruct (size =? size)%float. }
  assert (Hsame : strict_neq
                    (rowHeights (setRowHeight st index size) !! index) size
                  = false).
  { unfold setRowHeight.
    destruct (strict_neq (rowHeights st !! index) size) eqn:Hneq; [|exact Hneq].
    simpl. rewrite lookup_insert_eq. simpl. now rewrite Heq. }
  generalize dependent (setRowHeight st index size). intros st1 Hsame.
  unfold setRowHeight. now rewrite Hsame.
Qed.

(** A first measurement of row 3. *)
Lemma setRowHeight_twice_witness :
  let st := mount {| messages := transcript 5; isStreaming := false;
                     currentMessageId := None |} 800%float in
  setRowHeight (setRowHeight st 3 120%float) 3 120%float
  = setRowHeight st 3 120%float.
Proof.
  intros st. apply (setRowHeight_twice st 3 120%float). reflexivity.
Defined.

(** ** What the effect asks of the list *)

(** X5: a commit, be it the first render, a scroll or new props, makes at
    most one call on the list, and only ever [scrollToItem] of the last
    message, aligned at its end; with an empty transcript it makes none. *)
Theorem commit_calls_last_item (props : Props) (st : Instance) :
  calls (commit props st) = calls st ∨
  (messages props ≠ [] ∧
   calls (commit props st)
   = calls st ++ [scrollToItem (length (messages props) - 1) AlignEnd]).
Proof.
  unfold commit. case_bool_decide as Hd; [now left|]. simpl.
  unfold autoScroll.
  destruct (isNearBottom st); simpl; [|left; apply app_nil_r].
  destruct (messages props) as [|m ms] eqn:Hm; simpl;
    [left; apply app_nil_r|].
  destruct (listRef st); [|left; apply app_nil_r].
  right. split; [discriminate|reflexivity].
Qed.

(** X6: when a scroll of the user's own brings the viewport back to less
    than 100 from the bottom, the list is scrolled to the last message at
    once, without waiting for a new one. *)
Theorem return_to_bottom_snaps
    (props : Props) (st : Instance) (l : ListInstance) (scrollOffset : number) :
  listRef st = Some l →
  messages props ≠ [] →
  effectDeps st = Some (length (messages props), false) →
  (distanceFromBottom props st scrollOffset <? 100)%float = true →
  calls (onScroll props st scrollOffset false)
  = calls st ++ [scrollToItem (length (messages props) - 1) AlignEnd].
Proof.
  intros Hl Hne Hd Hnear. unfold onScroll, handleScroll; simpl.
  unfold commit; simpl. rewrite Hd, Hnear.
  rewrite bool_decide_eq_false_2 by (intros [=]). simpl.
  unfold autoScroll; simpl. rewrite Hl.
  destruct (messages props); [contradiction|reflexivity].
Qed.

(** The user scrolls away to 2000 and back to 5150. *)
Lemma return_to_bottom_snaps_witness :
  let props := {| messages := transcript 30; isStreaming := false;
                  currentMessageId := None |} in
  let away := onScroll props (mount props 800%float) 2000%float false in
  calls (onScroll props away 5150%float false)
  = calls away ++ [scrollToItem 29 AlignEnd].
Proof.
  intros props away.
  apply (return_to_bottom_snaps props away {| props_height := 800%float |}
           5150%float); reflexivity || discriminate.
Defined.

(** ** Scrolling to a message *)

Lemma findIndex_none {A : Type} (p : A → bool) (l : list A) :
  (∀ x, x ∈ l → p x = false) → findIndex p l = None.
Proof.
  induction l as [|x l IH]; intros Hall; simpl; [reflexivity|].
  rewrite (Hall x) by apply list_elem_of_here.
  rewrite IH; [reflexivity|]. intros y Hy. apply Hall. now apply list_elem_of_further.
Qed.

Lemma findIndex_first {A : Type} (p : A → bool) (l : list A) : ∀ i x,
  l !! i = Some x → p x = true →
  (∀ j y, j < i → l !! j = Some y → p y = false) →
  findIndex p l = Some i.
Proof.
  induction l as [|z l IH]; intros i x Hi Hp Hbefore; [discriminate|].
  destruct i as [|i]; simpl in *.
  - injection Hi as ->. now rewrite Hp.
  - rewrite (Hbefore 0 z) by (simpl; auto; lia).
    erewrite IH; [reflexivity|exact Hi|exact Hp|].
    intros j y Hj Hy. apply (Hbefore (S j) y); [lia|exact Hy].
Qed.

(** X7: asked to scroll to a message id, the component centres the first
    message that has this id, and makes no call when no message has it. *)
Theorem scrollToMessage_first_match
    (props : Props) (st : Instance) (l : ListInstance) (target : string) :
  listRef st = Some l → target ≠ "" →
  ((∀ m, m ∈ messages props → id m ≠ target) →
   scrollToMessage props (Some target) st = []) ∧
  (∀ index m,
     messages props !! index = Some m → id m = target →
     (∀ j m', j < index → messages props !! j = Some m' → id m' ≠ target) →
     scrollToMessage props (Some target) st = [scrollToItem index AlignCenter]).
Proof.
  intros Hl Ht. unfold scrollToMessage.
  rewrite bool_decide_eq_false_2 by exact Ht. split.
  - intros Hnone. rewrite findIndex_none; [reflexivity|].
    intros x Hx. apply bool_decide_eq_false. now apply Hnone.
  - intros index m Hi Hm Hbefore.
    rewrite (findIndex_first _ _ index m Hi); [now rewrite Hl| |].
    + now apply bool_decide_eq_true.
    + intros j y Hj Hy. apply bool_decide_eq_false. eauto.
Qed.

(** The third message of a transcript, and an id no message has. *)
Lemma scrollToMessage_first_match_witness :
  let props := {| messages := transcript 30; isStreaming := false;
                  currentMessageId := None |} in
  let st := mount props 800%float in
  scrollToMessage props (Some "mmm") st = [scrollToItem 2 AlignCenter] ∧
  scrollToMessage props (Some "zzz") st = [].
Proof.
  intros props st.
  destruct (scrollToMessage_first_match props st {| props_height := 800%float |}
              "mmm" eq_refl) as [_ Hfound]; [discriminate|].
  destruct (scrollToMessage_first_match props st {| props_height := 800%float |}
              "zzz" eq_refl) as [Hnone _]; [discriminate|].
  split.
  - apply (Hfound 2 (plain "mmm" 20)); [reflexivity|reflexivity|].
    intros j m' Hj Hm'.
    destruct j as [|[|j]]; [| |lia]; injection Hm' as <-; discriminate.
  - apply Hnone. intros m Hm. unfold props in Hm. simpl in Hm.
    apply list_elem_of_fmap in Hm as (i & -> & _). simpl.
    destruct i; discriminate.
Defined.

End VirtualListFacts.

(** ** The debounced hook *)

Module DebouncedStorageFacts.
Import LocalStorage DebouncedStorage.

Section Hook.

Context {T : Type}.
Variable stringify : T → option string.
Variable same : T → T → bool.
Variable quota : gmap string string → string → string → bool.

Implicit Types (w : @World T) (h : @Host T).
Implicit Types (u first : Z * T) (us rest : list (Z * T)) (v : T).

Local Abbreviation runTimers := (DebouncedStorage.runTimers stringify quota).
Local Abbreviation advance := (DebouncedStorage.advance stringify quota).
Local Abbreviation update := (DebouncedStorage.update stringify same quota).
Local Abbreviation updates := (DebouncedStorage.updates stringify same quota).
Local Abbreviation changing := (DebouncedStorage.changing same).
Local Abbreviation setStoredValue := (DebouncedStorage.setStoredValue same).
Local Abbreviation reachable := (DebouncedStorage.reachable stringify same quota).

(** A delay the timer holds is used as it is. *)
Lemma timeout_fits (d : Z) : (d ≤ 2147483647)%Z → timeout d = Z.max 0 d.
Proof.
  intros Hd. unfold timeout. destruct (Z.ltb_spec 2147483647 d); [lia|reflexivity].
Qed.

Lemma timeout_bounds (d : Z) : (0 ≤ timeout d ≤ Z.max 0 d)%Z.
Proof. unfold timeout. destruct (Z.ltb_spec 2147483647 d); lia. Qed.

Lemma unwritten_refl w : unwritten w w.
Proof. now repeat split. Qed.

Lemma unwritten_trans w1 w2 w3 :
  unwritten w1 w2 → unwritten w2 w3 → unwritten w1 w3.
Proof. unfold unwritten. intuition congruence. Qed.

Lemma clearPending_settled w :
  quiet w ∨ (∃ t v, armed w t v) →
  quiet (clearPending w) ∧ unwritten w (clearPending w) ∧
  now (clearPending w).1 = now w.1 ∧
  storedValue (clearPending w).2 = storedValue w.2.
Proof.
  destruct w as [h k]. unfold quiet, armed, clearPending; simpl.
  intros Hs. destruct (timeoutRef k) as [i|] eqn:Hi; simpl.
  - split; [|now repeat split].
    destruct Hs as [Hq|(t & v & j & Ht & Hj)]; [now rewrite Hq|].
    injection Hj as <-. rewrite Ht.
    rewrite filter_cons_False by (simpl; tauto). reflexivity.
  - split; [|now repeat split].
    destruct Hs as [Hq|(t & v & j & _ & Hj)]; [exact Hq|discriminate].
Qed.

Lemma effect_arms w :
  quiet w →
  armed (effect w) (now w.1 + timeout (delay w.2)) (storedValue w.2) ∧
  unwritten w (effect w) ∧ now (effect w).1 = now w.1 ∧
  storedValue (effect w).2 = storedValue w.2.
Proof.
  intros Hq.
  destruct (clearPending_settled w (or_introl Hq)) as (Hq' & Hu & Hn & Hv).
  unfold effect. destruct (clearPending w) as [h k] eqn:Hc.
  unfold quiet in Hq'. simpl in *.
  destruct Hu as (Hw & Hi & Hcon & Hk & Hd). simpl in *.
  split; [|now repeat split].
  exists (nextId h). simpl. rewrite Hq', Hn, Hd, Hv. now split.
Qed.

(** A changed value leaves exactly one timer, due [delay] from now, as far
    as the timer holds the delay, and holding the new value; nothing is
    written. *)
Lemma rerender_arms w v :
  quiet w ∨ (∃ t' v', armed w t' v') →
  armed (rerender v w) (now w.1 + timeout (delay w.2)) v ∧
  unwritten w (rerender v w) ∧ now (rerender v w).1 = now w.1 ∧
  storedValue (rerender v w).2 = v.
Proof.
  intros Hs. unfold rerender, cleanup.
  set (w1 := (w.1, {| key := key w.2; delay := delay w.2; storedValue := v;
                      timeoutRef := timeoutRef w.2 |})).
  assert (Hs1 : quiet w1 ∨ (∃ t' v', armed w1 t' v')).
  { destruct Hs as [Hq|(t' & v' & i & Ht & Hi)]; [now left|right].
    exists t', v', i. now split. }
  destruct (clearPending_settled w1 Hs1) as (Hq & Hu & Hn & Hv).
  destruct (effect_arms _ Hq) as (Ha & Hu' & Hn' & Hv').
  destruct Hu as (? & ? & ? & Hk & Hd), Hu' as (? & ? & ? & Hk' & Hd').
  rewrite Hn, Hd in Ha. rewrite Hv in Ha. simpl in *.
  split; [exact Ha|].
  split; [unfold unwritten; simpl; repeat split; congruence|].
  split; congruence.
Qed.

Lemma runTimers_quiet fuel t h : timers h = [] → runTimers fuel t h = h.
Proof. intros Hq. destruct fuel; simpl; [reflexivity|]. now rewrite Hq. Qed.

(** Time passing over a quiet hook moves the clock only. *)
Lemma advance_quiet w t :
  quiet w →
  quiet (advance t w) ∧ unwritten w (advance t w) ∧
  now (advance t w).1 = Z.max (now w.1) t ∧ (advance t w).2 = w.2.
Proof.
  intros Hq. unfold advance. rewrite (runTimers_quiet _ _ _ Hq).
  unfold quiet in *. simpl. now repeat split.
Qed.

(** Before the timer is due, time passing moves the clock only. *)
Lemma advance_before w t td v :
  armed w td v → (t < td)%Z →
  armed (advance t w) td v ∧ unwritten w (advance t w) ∧
  now (advance t w).1 = Z.max (now w.1) t ∧ (advance t w).2 = w.2.
Proof.
  intros (i & Ht & Hi) Hlt. unfold advance. rewrite Ht. simpl.
  rewrite Ht. simpl.
  destruct (Z.leb_spec td t) as [Hle|_]; [lia|].
  split; [|now repeat split].
  exists i. simpl. now split.
Qed.


(** ** The states the hook reaches *)

Lemma advance_fires w t td v :
  armed w td v → (td ≤ t)%Z → quiet (advance t w).
Proof.
  intros (i & Ht & Hi) Hle. unfold DebouncedStorage.advance, quiet.
  rewrite Ht. simpl. rewrite Ht. simpl.
  destruct (Z.leb_spec td t) as [_|Hlt]; [|lia].
  unfold fire, callback. simpl. rewrite Ht.
  rewrite filter_cons_False by (simpl; tauto). rewrite filter_nil.
  destruct (stringify v) as [payload|]; [|reflexivity].
  now destruct (setItem quota (items w.1) (key w.2) payload).
Qed.

(** Once time has passed until [t], nothing of the hook is due at [t]. *)
Lemma advance_settles w t : rested w → settled (advance t w) t.
Proof.
  intros [Hq|(td & v & Harm & Hnow)].
  - left. now apply advance_quiet.
  - destruct (Z.le_gt_cases td t) as [Hle|Hlt].
    + left. eapply advance_fires; eassumption.
    + right. exists td, v. split; [|exact Hlt].
      now apply advance_before.
Qed.

Lemma advance_rested w t : rested w → rested (advance t w).
Proof.
  intros [Hq|(td & v & Harm & Hnow)].
  - left. now apply advance_quiet.
  - destruct (Z.le_gt_cases td t) as [Hle|Hlt].
    + left. eapply advance_fires; eassumption.
    + destruct (advance_before w t td v Harm Hlt) as (Harm' & _ & Hn & _).
      right. exists td, v. split; [exact Harm'|]. rewrite Hn. lia.
Qed.

Lemma rested_pending w : rested w → quiet w ∨ ∃ t' v', armed w t' v'.
Proof. intros [Hq|(td & v & Harm & _)]; [now left|right; eauto]. Qed.

Lemma rerender_rested w v : rested w → rested (rerender v w).
Proof.
  intros Hr.
  destruct (rerender_arms w v (rested_pending w Hr)) as (Harm & _ & Hn & _).
  right. eexists _, _. split; [exact Harm|]. rewrite Hn.
  pose proof (timeout_bounds (delay w.2)). lia.
Qed.

Lemma setStoredValue_rested w v : rested w → rested (setStoredValue v w).
Proof.
  intros Hr. unfold setStoredValue.
  destruct (same v (storedValue w.2)); [exact Hr|now apply rerender_rested].
Qed.

(** In every state the hook reaches at most its own timer is pending, so
    after the timers due have run the hook is settled. *)
Lemma reachable_rested w : reachable w → rested w.
Proof.
  induction 1 as [k v0 d|w v _ IH|w t _ IH].
  - right. exists (0 + timeout d)%Z, v0.
    split; [|pose proof (timeout_bounds d); simpl; lia].
    exists 1%positive. now split.
  - now apply setStoredValue_rested.
  - now apply advance_rested.
Qed.

Lemma reachable_settled w t : reachable w → settled (advance t w) t.
Proof. intros Hr. now apply advance_settles, reachable_rested. Qed.

(** ** A burst of updates *)

(** An update that changes the value, before the pending timer is due,
    replaces that timer by one due [delay] after the update. *)
Lemma update_arms w u :
  settled w u.1 →
  (now w.1 ≤ u.1)%Z →
  (delay w.2 ≤ 2147483647)%Z →
  same u.2 (storedValue w.2) = false →
  armed (update w u) (u.1 + Z.max 0 (delay w.2)) u.2 ∧
  unwritten w (update w u) ∧ now (update w u).1 = u.1 ∧
  storedValue (update w u).2 = u.2.
Proof.
  intros Hs Hnow Hfit Hch. unfold update, setStoredValue.
  assert (Ha : (quiet (advance u.1 w) ∨ ∃ t' v', armed (advance u.1 w) t' v') ∧
               unwritten w (advance u.1 w) ∧
               now (advance u.1 w).1 = Z.max (now w.1) u.1 ∧
               (advance u.1 w).2 = w.2).
  { destruct Hs as [Hq|(td & v & Harm & Hlt)].
    - destruct (advance_quiet w u.1 Hq) as (? & ? & ? & ?). auto.
    - destruct (advance_before w u.1 td v Harm Hlt) as (? & ? & ? & ?).
      split; [right; eauto|auto]. }
  destruct Ha as (Hs' & Hu & Hn & H2).
  assert (Hch' : same u.2 (storedValue (advance u.1 w).2) = false)
    by now rewrite H2.
  rewrite Hch'.
  destruct (rerender_arms (advance u.1 w) u.2 Hs') as (Harm & Hu' & Hn' & Hv).
  rewrite Hn, H2, (timeout_fits _ Hfit) in Harm. rewrite Hn in Hn'.
  replace (Z.max (now w.1) u.1) with u.1 in * by lia.
  split; [exact Harm|].
  split; [eapply unwritten_trans; eassumption|].
  split; assumption.
Qed.

(** Updates that keep coming before the pending timer is due leave one
    timer, due [delay] after the last of them, and write nothing. *)
Lemma updates_arm us : ∀ w u,
  armed w (u.1 + Z.max 0 (delay w.2)) u.2 →
  now w.1 = u.1 → storedValue w.2 = u.2 →
  (delay w.2 ≤ 2147483647)%Z →
  spaced (delay w.2) u.1 us → changing u.2 us →
  armed (updates us w)
        ((final u us).1 + Z.max 0 (delay w.2)) (final u us).2 ∧
  unwritten w (updates us w) ∧ now (updates us w).1 = (final u us).1.
Proof.
  induction us as [|u' us IH]; intros w u Harm Hnow Hv Hfit Hsp Hch.
  - simpl. split; [exact Harm|]. split; [apply unwritten_refl|exact Hnow].
  - destruct Hsp as [Hgap Hsp], Hch as [Hc Hch].
    destruct (update_arms w u') as (Harm' & Hu & Hn & Hv').
    { right. exists (u.1 + Z.max 0 (delay w.2))%Z, u.2. split; [exact Harm|lia]. }
    { lia. }
    { exact Hfit. }
    { now rewrite Hv. }
    assert (Hd : delay (update w u').2 = delay w.2) by apply Hu.
    destruct (IH (update w u') u') as (Hfin & Hu' & Hn'); try assumption.
    { now rewrite Hd. }
    { now rewrite Hd. }
    { now rewrite Hd. }
    rewrite Hd in Hfin. simpl.
    split; [exact Hfin|]. split; [|exact Hn'].
    eapply unwritten_trans; eassumption.
Qed.

(** A burst that starts on a settled hook. *)
Lemma burst_arms w first rest :
  settled w first.1 → (now w.1 ≤ first.1)%Z →
  changing (storedValue w.2) (first :: rest) →
  spaced (delay w.2) first.1 rest →
  (delay w.2 ≤ 2147483647)%Z →
  armed (updates (first :: rest) w)
        ((final first rest).1 + Z.max 0 (delay w.2)) (final first rest).2 ∧
  unwritten w (updates (first :: rest) w) ∧
  now (updates (first :: rest) w).1 = (final first rest).1.
Proof.
  intros Hq Hnow [Hc Hch] Hsp Hfit.
  destruct (update_arms w first Hq Hnow Hfit Hc) as (Harm & Hu & Hn & Hv).
  assert (Hd : delay (update w first).2 = delay w.2) by apply Hu.
  destruct (updates_arm rest (update w first) first) as (Hfin & Hu' & Hn');
    try assumption; try (now rewrite Hd).
  rewrite Hd in Hfin. simpl.
  split; [exact Hfin|]. split; [|exact Hn'].
  eapply unwritten_trans; eassumption.
Qed.

(** ** Coalescing *)




(** ** Unmounting *)

(** X8: the cleanup of the effect cancels the pending write. A component
    that unmounts before the delay has passed never writes its last value,
    however much time passes afterwards. *)
Theorem unmount_drops_pending_write (w : World) (t : Z) :
  rested w →
  quiet (cleanup w) ∧ writes (advance t (cleanup w)).1 = writes w.1.
Proof.
  intros Hr.
  destruct (clearPending_settled w (rested_pending w Hr))
    as (Hq & (Hw & _) & _).
  split; [exact Hq|].
  destruct (advance_quiet (cleanup w) t Hq) as (_ & (Hw' & _) & _).
  unfold cleanup in *. congruence.
Qed.

(** ** A write that fails *)

(** X9: when the write of the pending value throws, because the value does
    not serialise or the store refuses it, the error is logged and that is
    all: the store keeps its content, nothing stays pending, and no later
    time brings another attempt. *)
Theorem failed_debounced_write_dropped
    (w : World) (td : Z) (v : T) (t t' : Z) :
  armed w td v → (now w.1 ≤ td ≤ t)%Z → (t ≤ t')%Z →
  (payload ← stringify v; setItem quota (items w.1) (key w.2) payload) = None →
  quiet (advance t w) ∧
  items (advance t w).1 = items w.1 ∧
  console (advance t w).1 = console w.1 ++ [WriteError (key w.2)] ∧
  writes (advance t' (advance t w)).1 = writes (advance t w).1.
Proof.
  intros Harm Hle Hle' Hfail.
  assert (Hq : quiet (advance t w)) by (eapply advance_fires; [exact Harm|lia]).
  split; [exact Hq|].
  destruct (advance_quiet (advance t w) t' Hq) as (_ & (Hw' & _) & _).
  split; [|split; [|exact Hw']].
  all: destruct Harm as (i & Ht & Hi);
    unfold DebouncedStorage.advance; rewrite Ht; simpl; rewrite Ht; simpl;
    destruct (Z.leb_spec td t) as [_|Hlt]; [|lia];
    unfold fire, callback; simpl;
    destruct (stringify v) as [payload|]; simpl in *; [|reflexivity];
    now rewrite Hfail.
Qed.

(** ** The pending timer *)

(** X10: in every state the hook reaches it has at most one timer pending,
    the one [timeoutRef] names; that timer holds the current key and the
    current value, and it is due no later than [delay] from now. *)
Theorem pending_timer_is_current (w : World) :
  reachable w →
  quiet w ∨
  ∃ td, armed w td (storedValue w.2) ∧
        (now w.1 ≤ td ≤ now w.1 + Z.max 0 (delay w.2))%Z.
Proof.
  induction 1 as [k v0 d|w v _ IH|w t _ IH].
  - right. exists (0 + timeout d)%Z.
    split; [|pose proof (timeout_bounds d); simpl; lia].
    exists 1%positive. now split.
  - unfold DebouncedStorage.setStoredValue.
    destruct (same v (storedValue w.2)); [exact IH|].
    assert (Hs : quiet w ∨ ∃ t' v', armed w t' v').
    { destruct IH as [Hq|(td & Harm & _)]; [now left|right; eauto]. }
    destruct (rerender_arms w v Hs) as (Harm & (_ & _ & _ & _ & Hd) & Hn & Hv).
    right. exists (now w.1 + timeout (delay w.2))%Z.
    rewrite Hv, Hn, Hd.
    split; [exact Harm|pose proof (timeout_bounds (delay w.2)); lia].
  - destruct IH as [Hq|(td & Harm & Hnow)].
    + left. now apply advance_quiet.
    + destruct (Z.le_gt_cases td t) as [Hle|Hlt].
      * left. eapply advance_fires; eassumption.
      * destruct (advance_before w t td _ Harm Hlt) as (Harm' & _ & Hn & H2).
        right. exists td. rewrite H2, Hn. split; [exact Harm'|lia].
Qed.

(** ** Reading back *)

Lemma advance_due_items w t td v payload :
  armed w td v → (td ≤ t)%Z → stringify v = Some payload →
  quota (items w.1) (key w.2) payload = true →
  items (advance t w).1 = <[key w.2 := payload]> (items w.1).
Proof.
  intros (i & Ht & Hi) Hle Hs Hok. unfold DebouncedStorage.advance.
  rewrite Ht. simpl. rewrite Ht. simpl.
  destruct (Z.leb_spec td t) as [_|Hlt]; [|lia].
  unfold fire, callback. simpl. rewrite Hs. unfold setItem. now rewrite Hok.
Qed.

(** [JSON.parse], for the state initialiser. *)
Variable parse : string → option T.
Local Abbreviation initialState := (DebouncedStorage.initialState parse).

(** X11: what a burst leaves in the store is what the next instance of the
    hook starts from: when the store takes the payload of the last value
    and the payload parses back to that value, the state initialiser of a
    hook on the same key returns the last value, without an error. The
    delay is one the timer holds. *)
Theorem written_value_is_read_back
    (w : World) (first : Z * T) (rest : list (Z * T)) (t : Z)
    (payload : string) (initialValue : T) :
  settled w first.1 → (now w.1 ≤ first.1)%Z →
  changing (storedValue w.2) (first :: rest) →
  spaced (delay w.2) first.1 rest →
  (delay w.2 ≤ 2147483647)%Z →
  stringify (final first rest).2 = Some payload →
  payload ≠ "" →
  quota (items w.1) (key w.2) payload = true →
  parse payload = Some (final first rest).2 →
  ((final first rest).1 + Z.max 0 (delay w.2) ≤ t)%Z →
  initialState (items (advance t (updates (first :: rest) w)).1)
               (key w.2) initialValue
  = ((final first rest).2, false).
Proof.
  intros Hq Hnow Hch Hsp Hfit Hser Hne Hok Hparse Ht.
  destruct (burst_arms w first rest Hq Hnow Hch Hsp Hfit)
    as (Harm & (Hw & Hi & _ & Hk & _) & Hn).
  rewrite (advance_due_items _ t _ _ payload Harm Ht Hser)
    by (now rewrite Hi, Hk).
  unfold DebouncedStorage.initialState. rewrite Hk, lookup_insert_eq.
  rewrite bool_decide_eq_false_2 by exact Hne. now rewrite Hparse.
Qed.

End Hook.






(** One update at 0, then the component unmounts: nothing is written. *)
Lemma unmount_drops_pending_write_witness :
  let w := updates payloadOf Nat.eqb unlimited [(0%Z, 1)] spaces in
  quiet (cleanup w) ∧
  writes (advance payloadOf unlimited 5000 (cleanup w)).1 = [].
Proof.
  intros w. apply (unmount_drops_pending_write payloadOf Nat.eqb unlimited w 5000).
  right. exists 1000%Z, 1. split; [|simpl; lia].
  exists 1%positive. split; reflexivity.
Defined.

(** One update at 0 on a full store. *)
Lemma failed_debounced_write_dropped_witness :
  let w := updates payloadOf Nat.eqb full [(0%Z, 1)] spaces in
  quiet (advance payloadOf full 1000 w) ∧
  items (advance payloadOf full 1000 w).1 = items w.1 ∧
  console (advance payloadOf full 1000 w).1
  = console w.1 ++ [WriteError "spaces"] ∧
  writes (advance payloadOf full 9000 (advance payloadOf full 1000 w)).1
  = writes (advance payloadOf full 1000 w).1.
Proof.
  intros w.
  apply (failed_debounced_write_dropped payloadOf Nat.eqb full w 1000 1 1000 9000).
  - exists 1%positive. split; reflexivity.
  - simpl. lia.
  - lia.
  - reflexivity.
Defined.

(** The hook 300 ms after its first render, when the value is set to 5. *)
Lemma pending_timer_is_current_witness :
  let w := setStoredValue Nat.eqb 5
             (advance payloadOf unlimited 300 (mount spaces)) in
  quiet w ∨
  ∃ td, armed w td (storedValue w.2) ∧
        (now w.1 ≤ td ≤ now w.1 + Z.max 0 (delay w.2))%Z.
Proof.
  intros w.
  apply (pending_timer_is_current payloadOf Nat.eqb unlimited w).
  apply reach_set, reach_advance. exact (reach_init _ _ _ "spaces" 0 1000%Z).
Defined.

(** Scenario D, then a new instance of the hook on the same key. *)
Lemma written_value_is_read_back_witness :
  initialState countOf
    (items (advance payloadOf unlimited 5000
              (updates payloadOf Nat.eqb unlimited
                       [(0%Z, 1); (200%Z, 2)] spaces)).1)
    "spaces" 0
  = (2, false).
Proof.
  apply (written_value_is_read_back payloadOf Nat.eqb unlimited countOf
           spaces (0%Z, 1) [(200%Z, 2)] 5000 "xx" 0).
  - left. reflexivity.
  - simpl. lia.
  - simpl. auto.
  - simpl. lia.
  - simpl. lia.
  - reflexivity.
  - discriminate.
  - reflexivity.
  - reflexivity.
  - simpl. lia.
Defined.

End DebouncedStorageFacts.

(** ** The storage queue *)

Module StorageQueueFacts.
Import LocalStorage StorageQueue.

Section Queue.

Context {V : Type}.
Variable stringify : V → option string.
Variable quota : gmap string string → string → string → bool.

Implicit Types (this : @LocalStorageQueue V) (q l : list (@QueueItem V)).
Implicit Types (x item : @QueueItem V) (v : V).
Implicit Types (e : @Event V) (events : list (@Event V)).

Local Abbreviation QueueItem := (@StorageQueue.QueueItem V).
Local Abbreviation write := (StorageQueue.write stringify quota).
Local Abbreviation idle := (StorageQueue.idle stringify quota).
Local Abbreviation run := (StorageQueue.run stringify quota).

(** ** Sorting keeps the items *)

Lemma insertSorted_perm x l : insertSorted x l ≡ₚ x :: l.
Proof.
  induction l as [|y l IH]; simpl; [reflexivity|].
  destruct (priorityOrder (priority x) <=? priorityOrder (priority y))%Z;
    [reflexivity|].
  rewrite IH. apply Permutation_swap.
Qed.

Lemma sortByPriority_perm l : sortByPriority l ≡ₚ l.
Proof.
  induction l as [|x l IH]; simpl; [reflexivity|].
  now rewrite insertSorted_perm, IH.
Qed.

Lemma enqueued_perm k v p q :
  enqueued k v p q ≡ₚ
  filter (λ item, key item ≠ k) q ++ [{| key := k; value := v; priority := p |}].
Proof. apply sortByPriority_perm. Qed.

Lemma processLoop_queue this : queue (processLoop this) = tail (queue this).
Proof. unfold processLoop. now destruct (queue this). Qed.

Lemma add_queue k v p this :
  queue (add k v p this)
  = if processing this then enqueued k v p (queue this)
    else tail (enqueued k v p (queue this)).
Proof.
  unfold add; simpl. destruct (processing this); [reflexivity|].
  unfold process. now rewrite processLoop_queue.
Qed.

Lemma add_scheduled k v p this :
  scheduled (add k v p this)
  = if processing this then scheduled this
    else match enqueued k v p (queue this) with
         | item :: _ => Some item
         | [] => scheduled this
         end.
Proof.
  unfold add; simpl. destruct (processing this); [reflexivity|].
  unfold process, processLoop; simpl. fold (enqueued k v p (queue this)).
  now destruct (enqueued k v p (queue this)).
Qed.

(** ** One item per key in the queue *)

Lemma NoDup_keys_filter (P : QueueItem → Prop) `{∀ x, Decision (P x)} q :
  NoDup (key <$> q) → NoDup (key <$> filter P q).
Proof.
  induction q as [|x q IH]; simpl; [auto|].
  rewrite NoDup_cons. intros [Hx Hq].
  rewrite filter_cons. destruct (decide (P x)); [|auto].
  rewrite fmap_cons, NoDup_cons. split; [|auto].
  intros Hin. apply Hx.
  apply list_elem_of_fmap in Hin as (y & Hy & Hin).
  apply list_elem_of_filter in Hin as [_ Hin].
  apply list_elem_of_fmap. eauto.
Qed.

Lemma NoDup_keys_tail q : NoDup (key <$> q) → NoDup (key <$> tail q).
Proof.
  destruct q as [|x q]; simpl; [auto|].
  rewrite NoDup_cons. tauto.
Qed.

Lemma enqueued_NoDup k v p q :
  NoDup (key <$> q) → NoDup (key <$> enqueued k v p q).
Proof.
  intros Hq. rewrite enqueued_perm, fmap_app. simpl.
  apply NoDup_app. split; [now apply NoDup_keys_filter|]. split.
  - intros x Hx Hk. apply list_elem_of_singleton in Hk as ->.
    apply list_elem_of_fmap in Hx as (y & Hy & Hin).
    apply list_elem_of_filter in Hin as [Hne _]. congruence.
  - apply NoDup_singleton.
Qed.

Lemma add_NoDup k v p this :
  NoDup (key <$> queue this) → NoDup (key <$> queue (add k v p this)).
Proof.
  intros Hq. rewrite add_queue.
  destruct (processing this);
    [|apply NoDup_keys_tail]; now apply enqueued_NoDup.
Qed.

Lemma idle_NoDup this :
  NoDup (key <$> queue this) → NoDup (key <$> queue (idle this)).
Proof.
  intros Hq. unfold idle.
  destruct (scheduled this) as [item|]; [|exact Hq].
  destruct (write item this); simpl; [|exact Hq].
  rewrite processLoop_queue. simpl. now apply NoDup_keys_tail.
Qed.

Lemma run_NoDup events : ∀ this,
  NoDup (key <$> queue this) → NoDup (key <$> queue (run events this)).
Proof.
  induction events as [|e events IH]; intros this Hq; [exact Hq|].
  simpl. apply IH. destruct e; simpl; [now apply add_NoDup|now apply idle_NoDup].
Qed.

(** ** Counting the writes of a key *)

Lemma queuedOf_enqueued k k' v p q :
  queuedOf k (enqueued k' v p q)
  = if decide (k' = k) then 1 else queuedOf k q.
Proof.
  unfold queuedOf. rewrite enqueued_perm, filter_app, length_app.
  rewrite filter_cons, filter_nil. simpl.
  destruct (decide (k' = k)) as [->|Hne]; simpl.
  - replace (filter (λ item, key item = k) (filter (λ item, key item ≠ k) q))
      with (@nil QueueItem); [reflexivity|].
    symmetry. induction q as [|x q IH]; [reflexivity|].
    rewrite (filter_cons (λ item, key item ≠ k)).
    destruct (decide (key x ≠ k)); [|exact IH].
    rewrite filter_cons. now destruct (decide (key x = k)).
  - rewrite Nat.add_0_r. f_equal.
    induction q as [|x q IH]; [reflexivity|].
    rewrite (filter_cons (λ item, key item ≠ k')), (filter_cons (λ item, key item = k)).
    destruct (decide (key x ≠ k')) as [Hx|Hx].
    + rewrite filter_cons. destruct (decide (key x = k)); now rewrite IH.
    + destruct (decide (key x = k)); [|exact IH].
      exfalso. apply Hx. congruence.
Qed.

Lemma processLoop_pending k this :
  pendingOf k (processLoop this) ≤ pendingOf k this ∧
  flushedOf k (processLoop this) = flushedOf k this.
Proof.
  unfold pendingOf, flushedOf, processLoop.
  destruct (queue this) as [|item rest]; simpl; [split; [lia|reflexivity]|].
  split; [|reflexivity].
  rewrite filter_cons. destruct (decide (key item = k)); simpl; lia.
Qed.

Lemma process_counts k this :
  pendingOf k (process this) ≤ pendingOf k this ∧
  flushedOf k (process this) = flushedOf k this.
Proof.
  exact (processLoop_pending k
           {| queue := queue this; processing := true;
              scheduled := scheduled this; items := items this;
              flushes := flushes this; console := console this |}).
Qed.

(** [add] in one piece: the new queue, then [process] unless it is running. *)
Lemma add_unfold k v p this :
  add k v p this
  = (if processing this then id else process)
      {| queue := enqueued k v p (queue this); processing := processing this;
         scheduled := scheduled this; items := items this;
         flushes := flushes this; console := console this |}.
Proof. unfold add; simpl. now destruct (processing this). Qed.

Lemma add_counts k k' v p this :
  flushedOf k (add k' v p this) + pendingOf k (add k' v p this)
  ≤ flushedOf k this + pendingOf k this + (if decide (k' = k) then 1 else 0).
Proof.
  rewrite add_unfold.
  set (this' := {| queue := enqueued k' v p (queue this) |}).
  assert (Hf : flushedOf k this' = flushedOf k this) by reflexivity.
  assert (Hp : pendingOf k this' ≤
               pendingOf k this + (if decide (k' = k) then 1 else 0)).
  { unfold pendingOf; simpl. fold (queuedOf k (enqueued k' v p (queue this))).
    rewrite queuedOf_enqueued. unfold queuedOf. destruct (decide (k' = k)); lia. }
  clearbody this'.
  destruct (processing this); [unfold id; lia|].
  destruct (process_counts k this') as [Hle Heq]. lia.
Qed.

Lemma idle_counts k this :
  flushedOf k (idle this) + pendingOf k (idle this)
  ≤ flushedOf k this + pendingOf k this.
Proof.
  unfold idle. destruct (scheduled this) as [item|] eqn:Hs; [|lia].
  assert (Hf : ∀ b, length (filter (λ f : QueueItem * bool, key f.1 = k)
                              (flushes this ++ [(item, b)]))
                    = flushedOf k this + if decide (key item = k) then 1 else 0).
  { intros b. rewrite filter_app, length_app, filter_cons, filter_nil. simpl.
    unfold flushedOf. now destruct (decide (key item = k)). }
  destruct (write item this) as [items'|]; simpl.
  - match goal with |- context [processLoop ?s] =>
      destruct (processLoop_pending k s) as [Hle Heq] end.
    rewrite Heq. unfold flushedOf at 1; simpl. rewrite Hf.
    unfold pendingOf in Hle at 2; simpl in Hle.
    unfold pendingOf at 2. rewrite Hs. lia.
  - unfold flushedOf at 1, pendingOf at 1; simpl. rewrite Hf.
    unfold pendingOf. rewrite Hs. lia.
Qed.

Lemma addedOf_cons k e events :
  addedOf k (e :: events) = (if addsKey k e then 1 else 0) + addedOf k events.
Proof.
  unfold addedOf. rewrite filter_cons.
  destruct (addsKey k e); destruct (decide _); simpl; congruence.
Qed.

Lemma run_counts k events : ∀ this,
  flushedOf k (run events this) + pendingOf k (run events this)
  ≤ flushedOf k this + pendingOf k this + addedOf k events.
Proof.
  induction events as [|e events IH]; intros this; simpl.
  - unfold addedOf; simpl. lia.
  - etransitivity; [apply IH|]. rewrite addedOf_cons.
    destruct e as [k' v p|]; simpl.
    + assert (H := add_counts k k' v p this).
      destruct (decide (k' = k)) as [->|Hne].
      * rewrite bool_decide_eq_true_2 by reflexivity. lia.
      * rewrite bool_decide_eq_false_2 by assumption. lia.
    + assert (H := idle_counts k this). lia.
Qed.

Lemma queuedOf_NoDup k q : NoDup (key <$> q) → queuedOf k q ≤ 1.
Proof.
  unfold queuedOf. induction q as [|x q IH]; simpl; [lia|].
  rewrite NoDup_cons. intros [Hx Hq]. rewrite filter_cons.
  destruct (decide (key x = k)) as [Hk|_]; [|auto].
  assert (Hnil : filter (λ item, key item = k) q = []).
  { destruct (filter (λ item, key item = k) q) as [|y l] eqn:Hf; [reflexivity|].
    assert (Hy : y ∈ filter (λ item, key item = k) q)
      by (rewrite Hf; apply list_elem_of_here).
    apply list_elem_of_filter in Hy as [Hyk Hy]. exfalso. apply Hx.
    apply list_elem_of_fmap. exists y. split; [congruence|exact Hy]. }
  rewrite Hnil. simpl. lia.
Qed.

Lemma elem_of_tail (x : QueueItem) q : x ∈ tail q → x ∈ q.
Proof. destruct q; simpl; [auto|]. apply list_elem_of_further. Qed.

(** ** Processing *)

Lemma step_idle_invariant this e :
  (processing this = false → queue this = [] ∧ scheduled this = None) →
  processing (step stringify quota this e) = false →
  queue (step stringify quota this e) = [] ∧
  scheduled (step stringify quota this e) = None.
Proof.
  intros Inv. destruct e as [k v p|]; simpl.
  - rewrite add_unfold.
    destruct (processing this) eqn:Hp; [unfold id; simpl; congruence|].
    destruct (Inv eq_refl) as [_ Hs].
    unfold process, processLoop; simpl.
    destruct (enqueued k v p (queue this)); simpl; [auto|discriminate].
  - unfold StorageQueue.idle.
    destruct (scheduled this) as [item|] eqn:Hs;
      [|intros Hp; destruct (Inv Hp); split; [assumption|exact Hs]].
    destruct (write item this); simpl.
    + unfold processLoop; simpl.
      destruct (queue this) eqn:Hq; simpl; [auto|].
      intros Hp. destruct (Inv Hp) as [? _]. discriminate.
    + intros Hp. destruct (Inv Hp) as [? _]. auto.
Qed.

Lemma run_idle_invariant events : ∀ this,
  (processing this = false → queue this = [] ∧ scheduled this = None) →
  processing (run events this) = false →
  queue (run events this) = [] ∧ scheduled (run events this) = None.
Proof.
  induction events as [|e events IH]; intros this Inv; [exact Inv|].
  simpl. apply IH. now apply step_idle_invariant.
Qed.

Lemma enqueued_new k v p q :
  {| key := k; value := v; priority := p |} ∈ enqueued k v p q.
Proof.
  rewrite enqueued_perm. apply elem_of_app. right. apply list_elem_of_here.
Qed.

Lemma add_flushes k v p this : flushes (add k v p this) = flushes this.
Proof.
  rewrite add_unfold. destruct (processing this); [reflexivity|].
  unfold process, processLoop; simpl.
  now destruct (enqueued k v p (queue this)).
Qed.

(** On a store that takes every write, one idle period per write flushes
    the scheduled write and then the queued ones, in queue order. *)
Lemma drain_flushes q : ∀ this item,
  (∀ v, is_Some (stringify v)) →
  (∀ stored k payload, quota stored k payload = true) →
  scheduled this = Some item → queue this = q →
  flushes (run (replicate (S (length q)) Idle) this)
  = flushes this ++ map (λ x, (x, true)) (item :: q).
Proof.
  induction q as [|y rest IH]; intros this item Hser Hquota Hs Hq;
    change (run (replicate (S (length ?l)) Idle) this)
      with (run (replicate (length l) Idle) (idle this));
    assert (Hidle : queue (idle this) = tail (queue this) ∧
                    scheduled (idle this) = head (queue this) ∧
                    flushes (idle this) = flushes this ++ [(item, true)]).
  1, 3: unfold StorageQueue.idle; rewrite Hs; unfold StorageQueue.write;
    destruct (Hser (value item)) as [payload ->]; simpl;
    unfold setItem; rewrite Hquota; simpl;
    unfold processLoop; simpl; rewrite Hq; simpl; auto.
  - destruct Hidle as (_ & _ & Hf). simpl. exact Hf.
  - destruct Hidle as (Hq' & Hs' & Hf). rewrite Hq in Hq', Hs'. simpl in *.
    rewrite (IH (idle this) y Hser Hquota Hs' Hq'), Hf.
    simpl. now rewrite <- app_assoc.
Qed.

(** ** The claims on the queue *)

(** C2 (amended): at every point in time the queue array holds at most one
    item per key, and [add] replaces an item of its key that is still in the
    array: afterwards the only item of that key in the array is the new one,
    which is in the array or has just been scheduled. A write that was
    already taken off the array and scheduled is not replaced, so a key has
    at most two writes waiting: [add] leaves the scheduled write scheduled
    and puts the new one in the array behind it, and on a store that takes
    every write the idle periods that follow flush the scheduled write
    first and then the array, the new write with it. *)
Theorem one_queued_write_per_key
    (events : list Event) (k : string) (v : V) (p : Priority) :
  let this := run events new in
  let item := {| key := k; value := v; priority := p |} in
  NoDup (key <$> queue this) ∧
  (∀ item', item' ∈ queue (add k v p this) → key item' = k → item' = item) ∧
  (item ∈ queue (add k v p this) ∨ scheduled (add k v p this) = Some item) ∧
  pendingOf k this ≤ 2 ∧
  (∀ old, scheduled this = Some old →
     scheduled (add k v p this) = Some old ∧
     item ∈ queue (add k v p this) ∧
     ((∀ v, is_Some (stringify v)) →
      (∀ stored k payload, quota stored k payload = true) →
      flushes (run (replicate (S (length (queue (add k v p this)))) Idle)
                   (add k v p this))
      = flushes this ++
        (old, true) :: map (λ x, (x, true)) (queue (add k v p this)))).
Proof.
  intros this item.
  assert (Hnd : NoDup (key <$> queue this)).
  { apply run_NoDup. simpl. apply NoDup_nil_2. }
  assert (Hin : item ∈ enqueued k v p (queue this)) by apply enqueued_new.
  split; [exact Hnd|]. split; [|split; [|split]].
  - intros item' Hq Hk.
    assert (Hq' : item' ∈ enqueued k v p (queue this)).
    { rewrite add_queue in Hq. destruct (processing this); [exact Hq|].
      now apply elem_of_tail. }
    rewrite enqueued_perm in Hq'. apply elem_of_app in Hq' as [Hf|Hn].
    + apply list_elem_of_filter in Hf as [Hne _]. contradiction.
    + now apply list_elem_of_singleton in Hn.
  - rewrite add_queue, add_scheduled.
    destruct (processing this); [now left|].
    destruct (enqueued k v p (queue this)) as [|hd tl]; [now left|].
    apply elem_of_cons in Hin as [->|Hin]; [now right|now left].
  - unfold pendingOf. fold (queuedOf k (queue this)).
    assert (H := queuedOf_NoDup k _ Hnd).
    destruct (scheduled this) as [x|]; [destruct (decide (key x = k))|]; lia.
  - intros old Hold.
    assert (Hp : processing this = true).
    { destruct (processing this) eqn:Hp; [reflexivity|].
      destruct (run_idle_invariant events new) as [_ Hnone];
        [simpl; auto|exact Hp|].
      fold this in Hnone. congruence. }
    assert (Hs : scheduled (add k v p this) = Some old)
      by now rewrite add_scheduled, Hp.
    split; [exact Hs|]. split; [now rewrite add_queue, Hp|].
    intros Hser Hquota.
    rewrite (drain_flushes _ (add k v p this) old Hser Hquota Hs eq_refl).
    now rewrite add_flushes.
Qed.

(** C4 (amended): a write is flushed at most once, whether the flush
    succeeds or fails; it is never retried or put back, and the queue has no
    retry count, no backoff and no failure callback. In numbers: the flushes
    attempted for a key and its writes still waiting never exceed the calls
    of [add] for that key. *)
Theorem flushed_at_most_once (events : list Event) (k : string) :
  flushedOf k (run events new) + pendingOf k (run events new)
  ≤ addedOf k events.
Proof. exact (run_counts k events new). Qed.

(** ** A failed flush *)

Lemma run_stalled events : ∀ this,
  processing this = true → scheduled this = None →
  flushes (run events this) = flushes this.
Proof.
  induction events as [|e events IH]; intros this Hp Hs; [reflexivity|].
  simpl. destruct e as [k v p|]; simpl.
  - rewrite IH; rewrite add_unfold, Hp; simpl; auto.
  - unfold idle. rewrite Hs. auto.
Qed.

(** X1: when the scheduled write throws, [process] is never resumed:
    [processing] stays set, and no later event, neither [add] nor idle
    time, flushes anything again. *)
Theorem failed_flush_stalls_queue
    (this : LocalStorageQueue) (item : QueueItem) (events : list Event) :
  processing this = true →
  scheduled this = Some item →
  write item this = None →
  flushes (run events (idle this)) = flushes this ++ [(item, false)].
Proof.
  intros Hp Hs Hfail.
  assert (Hidle : idle this
                  = {| queue := queue this; processing := processing this;
                       scheduled := None; items := items this;
                       flushes := flushes this ++ [(item, false)];
                       console := console this |}).
  { unfold idle. now rewrite Hs, Hfail. }
  rewrite Hidle. now rewrite run_stalled.
Qed.


(** ** The order of the queue *)

Lemma insertSorted_sorted x l :
  StronglySorted byPriority l → StronglySorted byPriority (insertSorted x l).
Proof.
  induction l as [|y l IH]; intros Hs; simpl.
  - repeat constructor.
  - apply StronglySorted_inv in Hs as [Hl Hy].
    destruct (Z.leb_spec (priorityOrder (priority x)) (priorityOrder (priority y)))
      as [Hle|Hgt].
    + constructor; [now constructor|].
      constructor; [exact Hle|].
      eapply Forall_impl; [exact Hy|].
      intros z Hz. unfold byPriority in *. lia.
    + constructor; [now apply IH|].
      rewrite insertSorted_perm. constructor; [|exact Hy].
      unfold byPriority. lia.
Qed.

Lemma sortByPriority_sorted l : StronglySorted byPriority (sortByPriority l).
Proof.
  induction l as [|x l IH]; simpl; [constructor|now apply insertSorted_sorted].
Qed.

Lemma sorted_tail q :
  StronglySorted byPriority q → StronglySorted byPriority (tail q).
Proof.
  destruct q as [|x q]; simpl; [auto|].
  intros Hs. now apply StronglySorted_inv in Hs as [Hq _].
Qed.

Lemma run_sorted events : ∀ this,
  StronglySorted byPriority (queue this) →
  StronglySorted byPriority (queue (run events this)).
Proof.
  induction events as [|e events IH]; intros this Hs; [exact Hs|].
  simpl. apply IH. destruct e as [k v p|]; simpl.
  - rewrite add_queue.
    destruct (processing this); [|apply sorted_tail]; apply sortByPriority_sorted.
  - unfold StorageQueue.idle.
    destruct (scheduled this) as [item|]; [|exact Hs].
    destruct (write item this); simpl; [|exact Hs].
    rewrite processLoop_queue. simpl. now apply sorted_tail.
Qed.

(** X12: at every point in time the queue is in priority order, high before
    normal before low, so the write that is scheduled next is one of the
    most urgent ones waiting. *)
Theorem queue_in_priority_order (events : list Event) :
  StronglySorted byPriority (queue (run events new)).
Proof. apply run_sorted. constructor. Qed.

Lemma insertSorted_stable (p : Priority) x l :
  filter (λ item, priority item = p) (insertSorted x l)
  = filter (λ item, priority item = p) (x :: l).
Proof.
  induction l as [|y l IH]; simpl; [reflexivity|].
  destruct (Z.leb_spec (priorityOrder (priority x)) (priorityOrder (priority y)))
    as [Hle|Hgt]; [reflexivity|].
  rewrite (filter_cons _ y), IH, !(filter_cons _ x), (filter_cons _ y).
  destruct (decide (priority y = p)) as [Hy|Hy],
           (decide (priority x = p)) as [Hx|Hx]; try reflexivity.
  exfalso. rewrite Hx, Hy in Hgt. lia.
Qed.

(** X13: the sort of [add] is stable. Among the writes of one priority the
    order of arrival is kept: the new write goes behind the ones of its
    priority that were waiting. *)
Theorem equal_priority_keeps_arrival_order
    (k : string) (v : V) (p p' : Priority) (q : list QueueItem) :
  filter (λ item, priority item = p') (enqueued k v p q)
  = filter (λ item, priority item = p')
           (filter (λ item, key item ≠ k) q
            ++ [{| key := k; value := v; priority := p |}]).
Proof.
  unfold enqueued.
  generalize (filter (λ item, key item ≠ k) q
              ++ [{| key := k; value := v; priority := p |}]).
  intros l. induction l as [|x l IH]; simpl; [reflexivity|].
  rewrite insertSorted_stable, !filter_cons, IH. reflexivity.
Qed.

(** ** Nothing waits without a callback *)


(** The flush log only grows. *)
Lemma step_flushes this e :
  ∃ more, flushes (step stringify quota this e) = flushes this ++ more.
Proof.
  destruct e as [k v p|]; simpl.
  - exists []. now rewrite add_flushes, app_nil_r.
  - unfold StorageQueue.idle. destruct (scheduled this) as [item|];
      [|exists []; now rewrite app_nil_r].
    destruct (write item this); simpl; [|eauto].
    unfold processLoop; simpl. destruct (queue this); simpl; eauto.
Qed.

Lemma run_flushes events : ∀ this,
  ∃ more, flushes (run events this) = flushes this ++ more.
Proof.
  induction events as [|e events IH]; intros this;
    [exists []; now rewrite app_nil_r|].
  simpl. destruct (IH (step stringify quota this e)) as [more Hl].
  destruct (step_flushes this e) as [more' Hl'].
  exists (more' ++ more). unfold StorageQueue.run in *. simpl.
  now rewrite Hl, Hl', app_assoc.
Qed.

(** While no flush has failed, a step keeps a write scheduled whenever
    something is waiting. *)
Lemma step_working_unfailed this e :
  working this →
  (∀ f, f ∈ flushes (step stringify quota this e) → f.2 = true) →
  working (step stringify quota this e).
Proof.
  unfold working. intros Hw Hok. destruct e as [k v p|]; simpl in *.
  - rewrite add_unfold. destruct (processing this) eqn:Hp; unfold id; simpl.
    + intros [?|Hs]; [discriminate|].
      destruct (Hw (or_intror Hs)) as (_ & _ & ?). congruence.
    + pose proof (enqueued_new k v p (queue this)) as Hin.
      unfold process, processLoop; simpl.
      destruct (enqueued k v p (queue this)); [inversion Hin|].
      simpl. intros [?|?]; discriminate.
  - unfold StorageQueue.idle in *.
    destruct (scheduled this) as [item|] eqn:Hs; [|rewrite Hs; exact Hw].
    destruct (write item this); simpl in *.
    + unfold processLoop; simpl.
      destruct (queue this); simpl; [auto|].
      intros [Hp|?]; [|discriminate].
      destruct (Hw (or_introl Hp)) as (_ & ? & _). congruence.
    + specialize (Hok (item, false)). simpl in Hok.
      assert (false = true); [|discriminate].
      apply Hok. apply elem_of_app. right. apply list_elem_of_here.
Qed.

Lemma run_working_unfailed events : ∀ this,
  working this →
  (∀ f, f ∈ flushes (run events this) → f.2 = true) →
  working (run events this).
Proof.
  induction events as [|e events IH]; intros this Hw Hok; [exact Hw|].
  simpl. apply IH; [|exact Hok].
  apply step_working_unfailed; [exact Hw|].
  intros f Hf. apply Hok.
  destruct (run_flushes events (step stringify quota this e)) as [more Hl].
  unfold StorageQueue.run in *. simpl. rewrite Hl. apply elem_of_app. now left.
Qed.

(** X14: whenever the queue is not processing, nothing is waiting: the
    array is empty and no write is scheduled. And as long as no flush has
    failed, whatever waits in the array has a write scheduled before it and
    [processing] set: short of a failed flush, [add] never leaves a write
    behind without a callback to flush it. *)
Theorem nothing_waits_unprocessed (events : list Event) :
  (processing (run events new) = false →
   queue (run events new) = [] ∧ scheduled (run events new) = None) ∧
  ((∀ f, f ∈ flushes (run events new) → f.2 = true) →
   queue (run events new) ≠ [] →
   is_Some (scheduled (run events new)) ∧ processing (run events new) = true).
Proof.
  split.
  - apply run_idle_invariant. simpl. auto.
  - intros Hok Hq.
    assert (Hw : working (run events new)).
    { apply run_working_unfailed; [|exact Hok]. intros _. simpl. auto. }
    split.
    + destruct (scheduled (run events new)) eqn:Hs; [eauto|].
      destruct (Hw (or_intror Hs)) as (? & _). contradiction.
    + destruct (processing (run events new)) eqn:Hp; [reflexivity|].
      destruct (Hw (or_introl Hp)) as (? & _). contradiction.
Qed.

(** X15: on a store that takes every write, idle time drains the queue: one
    idle period per write flushes the scheduled write and then the queued
    ones in queue order, all of them stored, and leaves the queue empty and
    no longer processing. *)
Theorem idle_time_drains_queue : ∀ this item,
  (∀ v, is_Some (stringify v)) →
  (∀ stored k payload, quota stored k payload = true) →
  scheduled this = Some item →
  let this' := run (replicate (S (length (queue this))) Idle) this in
  queue this' = [] ∧ scheduled this' = None ∧ processing this' = false ∧
  flushes this' = flushes this ++ map (λ x, (x, true)) (item :: queue this).
Proof.
  intros this item Hser Hquota.
  remember (queue this) as q eqn:Hq. revert this item Hq.
  induction q as [|y rest IH]; intros this item Hq Hs.
  - simpl. unfold StorageQueue.idle. rewrite Hs.
    unfold StorageQueue.write. destruct (Hser (value item)) as [payload ->].
    simpl. unfold setItem. rewrite Hquota. simpl.
    unfold processLoop; simpl. rewrite <- Hq. simpl. auto.
  - cbv zeta.
    replace (run (replicate (S (length (y :: rest))) Idle) this)
      with (run (replicate (S (length rest)) Idle) (idle this))
      by reflexivity.
    assert (Hidle : queue (idle this) = rest ∧
                    scheduled (idle this) = Some y ∧
                    flushes (idle this) = flushes this ++ [(item, true)]).
    { unfold StorageQueue.idle. rewrite Hs.
      unfold StorageQueue.write. destruct (Hser (value item)) as [payload ->].
      simpl. unfold setItem. rewrite Hquota. simpl.
      unfold processLoop; simpl. rewrite <- Hq. simpl. auto. }
    destruct Hidle as (Hq' & Hs' & Hf').
    specialize (IH (idle this) y (eq_sym Hq') Hs'). cbv zeta in IH.
    destruct IH as (H1 & H2 & H3 & Hf).
    rewrite H1, H2, H3, Hf, Hf'. repeat split.
    simpl. now rewrite <- app_assoc.
Qed.


(** ** No write is lost *)

(** X24: neither [add] nor idle time discards a waiting write of another
    key: a queued write stays queued or becomes the scheduled one, unless
    [add] is called for its own key. *)
Theorem step_keeps_other_writes this e item :
  item ∈ queue this →
  match e with Add k _ _ => key item ≠ k | Idle => True end →
  item ∈ queue (step stringify quota this e) ∨
  scheduled (step stringify quota this e) = Some item.
Proof.
  intros Hin Hk. destruct e as [k v p|]; simpl.
  - assert (Hen : item ∈ enqueued k v p (queue this)).
    { rewrite enqueued_perm. apply elem_of_app. left.
      now apply list_elem_of_filter. }
    rewrite add_queue, add_scheduled.
    destruct (processing this); [now left|].
    destruct (enqueued k v p (queue this)) as [|hd tl]; [now left|].
    apply elem_of_cons in Hen as [->|Hen]; [now right|now left].
  - unfold StorageQueue.idle.
    destruct (scheduled this) as [it|]; [|now left].
    destruct (write it this); simpl; [|now left].
    unfold processLoop; simpl.
    destruct (queue this) as [|hd tl]; simpl; [now left|].
    apply elem_of_cons in Hin as [->|Hin]; [now right|now left].
Qed.

(** ** The store after the queue has drained *)

Lemma add_items k v p this : items (add k v p this) = items this.
Proof.
  rewrite add_unfold. destruct (processing this); [reflexivity|].
  unfold process, processLoop; simpl.
  now destruct (enqueued k v p (queue this)).
Qed.


Lemma enqueued_other k k' v p q item :
  item ∈ enqueued k' v p q → key item = k → k' ≠ k →
  item ∈ q.
Proof.
  intros Hin Hk Hne. rewrite enqueued_perm in Hin.
  apply elem_of_app in Hin as [Hin|Hin].
  - now apply list_elem_of_filter in Hin as [_ ?].
  - apply list_elem_of_singleton in Hin. subst item. simpl in Hk. congruence.
Qed.

Section Accepting.

(** Every value serialises and the store takes every write. *)
Hypothesis serialises : ∀ v, is_Some (stringify v).
Hypothesis accepts : ∀ stored k payload, quota stored k payload = true.

Lemma idle_accepted this item :
  scheduled this = Some item →
  ∃ payload, stringify (value item) = Some payload ∧
    idle this
    = processLoop
        {| queue := queue this; processing := processing this;
           scheduled := None;
           items := <[key item := payload]> (items this);
           flushes := flushes this ++ [(item, true)];
           console := console this |}.
Proof.
  intros Hs. destruct (serialises (value item)) as [payload Hp].
  exists payload. split; [exact Hp|].
  unfold StorageQueue.idle. rewrite Hs. unfold StorageQueue.write.
  rewrite Hp. simpl. unfold setItem. now rewrite accepts.
Qed.

Lemma step_working this e : working this → working (step stringify quota this e).
Proof.
  unfold working. intros Hw. destruct e as [k v p|]; simpl.
  - rewrite add_unfold. destruct (processing this) eqn:Hp; unfold id; simpl.
    + intros [?|Hs]; [discriminate|].
      destruct (Hw (or_intror Hs)) as (_ & _ & ?). congruence.
    + pose proof (enqueued_new k v p (queue this)) as Hin.
      unfold process, processLoop; simpl.
      destruct (enqueued k v p (queue this)); [inversion Hin|].
      simpl. intros [?|?]; discriminate.
  - destruct (scheduled this) as [item|] eqn:Hs.
    + destruct (idle_accepted this item Hs) as (payload & _ & ->).
      unfold processLoop; simpl.
      destruct (queue this); simpl; [auto|].
      intros [Hp|?]; [|discriminate].
      destruct (Hw (or_introl Hp)) as (_ & ? & _). congruence.
    + unfold StorageQueue.idle. rewrite Hs. simpl. rewrite Hs. exact Hw.
Qed.

Lemma add_latest k v p this :
  working this → latest stringify k v (add k v p this).
Proof.
  intros Hw. unfold latest. rewrite add_queue, add_scheduled.
  pose proof (enqueued_new k v p (queue this)) as Hin.
  destruct (processing this) eqn:Hp.
  - left. eexists. split; [exact Hin|]. now split.
  - destruct (Hw (or_introl Hp)) as (Hq & _ & _).
    rewrite Hq in *. clear Hq.
    assert (He : enqueued k v p []
                 = [{| key := k; value := v; priority := p |}]) by reflexivity.
    rewrite He. simpl. right. split; [intros item Hi; inversion Hi|].
    left. eexists. split; [reflexivity|]. now split.
Qed.

Lemma add_other_latest k k' v v' p this :
  k' ≠ k → working this → latest stringify k v this →
  latest stringify k v (add k' v' p this).
Proof.
  intros Hne Hw. unfold latest.
  rewrite add_queue, add_scheduled, add_items.
  assert (Hkeep : ∀ item, item ∈ queue this → key item = k →
                          item ∈ enqueued k' v' p (queue this)).
  { intros item Hi Hk. rewrite enqueued_perm. apply elem_of_app. left.
    apply list_elem_of_filter. split; [congruence|exact Hi]. }
  assert (Hno : (∀ item, item ∈ queue this → key item ≠ k) →
                ∀ item, item ∈ enqueued k' v' p (queue this) → key item ≠ k).
  { intros Hq item Hi Hk. apply (Hq item); [|exact Hk].
    now apply (enqueued_other k k' v' p). }
  intros [(item & Hi & Hk & Hv)|(Hq & Hrest)].
  - destruct (processing this) eqn:Hp.
    + left. exists item. split; [now apply Hkeep|now split].
    + destruct (Hw (or_introl Hp)) as (Hq & _ & _).
      rewrite Hq in Hi. inversion Hi.
  - right. specialize (Hno Hq).
    destruct (processing this) eqn:Hp; [now split|].
    destruct (Hw (or_introl Hp)) as (_ & Hs & _).
    split; [intros item Hi; apply Hno; now apply elem_of_tail|].
    right. destruct Hrest as [(item & Hi & _)|(_ & Hit)]; [congruence|].
    split; [|exact Hit].
    destruct (enqueued k' v' p (queue this)) as [|hd tl] eqn:He.
    + rewrite Hs. discriminate.
    + intros item [= <-]. apply Hno. apply list_elem_of_here.
Qed.

Lemma idle_latest k v this :
  NoDup (key <$> queue this) → latest stringify k v this →
  latest stringify k v (idle this).
Proof.
  intros Hnd. destruct (scheduled this) as [it|] eqn:Hs;
    [|unfold StorageQueue.idle; now rewrite Hs].
  destruct (idle_accepted this it Hs) as (payload & Hpay & ->).
  unfold latest, processLoop; simpl. rewrite Hs.
  intros [(item & Hi & Hk & Hv)|(Hq & Hrest)].
  - destruct (queue this) as [|y rest] eqn:Hqu; [inversion Hi|]. simpl.
    apply elem_of_cons in Hi as [->|Hi].
    + right. split.
      * intros x Hx Hkx. simpl in Hnd. apply NoDup_cons in Hnd as [Hnot _].
        apply Hnot. apply list_elem_of_fmap. exists x. split; [congruence|exact Hx].
      * left. exists y. now split.
    + left. exists item. now split.
  - right. destruct (queue this) as [|y rest] eqn:Hqu; simpl.
    + split; [exact Hq|]. right. split; [discriminate|].
      destruct Hrest as [(item & [= <-] & Hk & Hv)|(Hit & Hst)].
      * subst k v. rewrite Hpay. apply lookup_insert_eq.
      * rewrite lookup_insert_ne; [exact Hst|]. now apply Hit.
    + split; [intros x Hx; apply Hq; now apply list_elem_of_further|].
      right. split; [intros x [= <-]; apply Hq; apply list_elem_of_here|].
      destruct Hrest as [(item & [= <-] & Hk & Hv)|(Hit & Hst)].
      * subst k v. rewrite Hpay. apply lookup_insert_eq.
      * rewrite lookup_insert_ne; [exact Hst|]. now apply Hit.
Qed.

Lemma run_latest k events : ∀ this acc v,
  working this → NoDup (key <$> queue this) →
  (∀ v', acc = Some v' → latest stringify k v' this) →
  lastAddedFrom acc k events = Some v →
  latest stringify k v (run events this) ∧ working (run events this).
Proof.
  induction events as [|e events IH]; intros this acc v Hw Hnd Hacc Hlast.
  - simpl in *. split; [now apply Hacc|exact Hw].
  - simpl. apply (IH _ _ _ (step_working this e Hw)) in Hlast; [exact Hlast| |].
    + destruct e as [k' v' p|]; simpl; [now apply add_NoDup|now apply idle_NoDup].
    + intros v'. destruct e as [k' added p|]; simpl.
      * destruct (decide (k' = k)) as [->|Hne].
        -- intros [= <-]. now apply add_latest.
        -- intros Hv'. apply add_other_latest; auto.
      * intros Hv'. apply idle_latest; auto.
Qed.

Lemma idle_drains n : ∀ this,
  working this →
  length (queue this) + match scheduled this with Some _ => 1 | None => 0 end ≤ n →
  queue (run (replicate n Idle) this) = [] ∧
  scheduled (run (replicate n Idle) this) = None.
Proof.
  induction n as [|n IH]; intros this Hw Hn.
  - simpl. destruct (scheduled this); [lia|].
    destruct (queue this); [auto|simpl in Hn; lia].
  - change (run (replicate (S n) Idle) this)
      with (run (replicate n Idle) (idle this)).
    apply IH; [exact (step_working this Idle Hw)|].
    destruct (scheduled this) as [item|] eqn:Hs.
    + destruct (idle_accepted this item Hs) as (payload & _ & ->).
      unfold processLoop; simpl.
      destruct (queue this); simpl in *; lia.
    + destruct (Hw (or_intror Hs)) as (Hq & _ & _).
      unfold StorageQueue.idle. rewrite Hs, Hq, Hs. simpl. lia.
Qed.

Lemma lastAddedFrom_idle k n : ∀ acc,
  lastAddedFrom acc k (replicate n (@Idle V)) = acc.
Proof. induction n as [|n IH]; intros acc; [reflexivity|apply IH]. Qed.

End Accepting.

(** X25: the last write wins. On a store that takes every write, once the
    queue has had an idle period for every write that was waiting, the
    store holds under each key the serialisation of the value of the last
    call of [add] for that key, whatever was added before or for other
    keys, and whatever the priorities. *)
Theorem drained_store_holds_last_value (events : list Event) (k : string) v n :
  (∀ v, is_Some (stringify v)) →
  (∀ stored k payload, quota stored k payload = true) →
  lastAdded k events = Some v →
  length (queue (run events new)) < n →
  items (run (events ++ replicate n Idle) new) !! k = stringify v.
Proof.
  intros Hser Hquota Hlast Hn.
  assert (Hw : working (@new V)).
  { intros _. simpl. auto. }
  assert (Hall : lastAddedFrom None k (events ++ replicate n Idle) = Some v).
  { unfold lastAddedFrom. rewrite foldl_app.
    fold (lastAddedFrom None k events). fold (lastAdded k events). rewrite Hlast.
    apply (lastAddedFrom_idle k n). }
  destruct (run_latest Hser Hquota k (events ++ replicate n Idle) new None v)
    as [Hlatest _]; [exact Hw|apply NoDup_nil_2|discriminate|exact Hall|].
  destruct (run_latest Hser Hquota k events new None v)
    as [_ Hw']; [exact Hw|apply NoDup_nil_2|discriminate|exact Hlast|].
  destruct (idle_drains Hser Hquota n (run events new) Hw') as [Hq Hs].
  { destruct (scheduled (run events new)); lia. }
  unfold StorageQueue.run in *. rewrite foldl_app in Hlatest.
  destruct Hlatest as [(item & Hi & _)|(_ & [(item & Hi & _)|(_ & Hst)])].
  - rewrite Hq in Hi. inversion Hi.
  - rewrite Hs in Hi. discriminate.
  - rewrite foldl_app. exact Hst.
Qed.

End Queue.

(** C2 (counterexample): the first write of ["a"] is scheduled when the
    second one is added; it is not replaced. Two writes of ["a"] are waiting,
    the second behind the first, and the store receives both. *)
Lemma scheduled_write_not_replaced :
  let this := run payloadOf unlimited
                  [Add "a" 1 normal; Add "a" 2 normal] new in
  scheduled this = Some {| key := "a"; value := 1; priority := normal |} ∧
  queue this = [{| key := "a"; value := 2; priority := normal |}] ∧
  pendingOf "a" this = 2 ∧
  flushes (run payloadOf unlimited [Idle; Idle] this)
  = [({| key := "a"; value := 1; priority := normal |}, true);
     ({| key := "a"; value := 2; priority := normal |}, true)].
Proof. vm_compute. repeat split; reflexivity. Qed.

(** C4 (counterexample): on a full store the write of ["spaces"] fails. It
    is attempted once; four idle periods later it has not been attempted
    again, it is neither queued nor scheduled, and nothing was reported. *)
Lemma failed_write_not_retried :
  let this := run payloadOf full
                  [Add "spaces" 1 normal; Idle; Idle; Idle; Idle; Idle] new in
  flushes this = [({| key := "spaces"; value := 1; priority := normal |}, false)] ∧
  queue this = [] ∧ scheduled this = None ∧ console this = [].
Proof. vm_compute. repeat split; reflexivity. Qed.

(** The write of ["big"] is refused; the writes of ["b"] and ["c"] added
    afterwards are never flushed. *)
Lemma failed_flush_stalls_queue_witness :
  flushes (run payloadOf refusesBig
             [Add "b" 2 normal; Idle; Add "c" 3 high; Idle; Idle]
             (idle payloadOf refusesBig
                (run payloadOf refusesBig [Add "big" 1 normal] new)))
  = [({| key := "big"; value := 1; priority := normal |}, false)].
Proof.
  apply (failed_flush_stalls_queue payloadOf refusesBig
           (run payloadOf refusesBig [Add "big" 1 normal] new)
           {| key := "big"; value := 1; priority := normal |}
           [Add "b" 2 normal; Idle; Add "c" 3 high; Idle; Idle]);
    reflexivity.
Defined.


(** A write is added and flushed. *)
Lemma nothing_waits_unprocessed_witness :
  queue (run payloadOf unlimited [Add "a" 1 normal; Idle] new) = [] ∧
  scheduled (run payloadOf unlimited [Add "a" 1 normal; Idle] new) = None.
Proof.
  apply (nothing_waits_unprocessed payloadOf unlimited [Add "a" 1 normal; Idle]).
  reflexivity.
Defined.

(** Three writes of three priorities, then three idle periods. *)
Lemma idle_time_drains_queue_witness :
  let this := run payloadOf unlimited
                  [Add "a" 1 normal; Add "b" 2 low; Add "c" 3 high] new in
  let this' := run payloadOf unlimited [Idle; Idle; Idle] this in
  queue this' = [] ∧ scheduled this' = None ∧ processing this' = false ∧
  flushes this'
  = [({| key := "a"; value := 1; priority := normal |}, true);
     ({| key := "c"; value := 3; priority := high |}, true);
     ({| key := "b"; value := 2; priority := low |}, true)].
Proof.
  intros this.
  apply (idle_time_drains_queue payloadOf unlimited this
           {| key := "a"; value := 1; priority := normal |}).
  - intros v. eexists. reflexivity.
  - reflexivity.
  - reflexivity.
Defined.


(** A write of ["b"] is waiting behind the scheduled write of ["a"] when a
    write of ["c"] with a higher priority is added. *)
Lemma step_keeps_other_writes_witness :
  {| key := "b"; value := 2; priority := low |}
    ∈ queue (step payloadOf unlimited
               (run payloadOf unlimited [Add "a" 1 normal; Add "b" 2 low] new)
               (Add "c" 3 high)) ∨
  scheduled (step payloadOf unlimited
               (run payloadOf unlimited [Add "a" 1 normal; Add "b" 2 low] new)
               (Add "c" 3 high))
  = Some {| key := "b"; value := 2; priority := low |}.
Proof.
  apply (step_keeps_other_writes payloadOf unlimited
           (run payloadOf unlimited [Add "a" 1 normal; Add "b" 2 low] new)
           (Add "c" 3 high) {| key := "b"; value := 2; priority := low |}).
  - simpl. apply list_elem_of_here.
  - simpl. discriminate.
Defined.

(** ["a"] is written twice, with another key in between, and the queue is
    given three idle periods. *)
Lemma drained_store_holds_last_value_witness :
  items (run payloadOf unlimited
           ([Add "a" 1 low; Add "b" 2 high; Add "a" 3 normal]
            ++ replicate 3 Idle) new) !! "a"
  = payloadOf 3.
Proof.
  apply (drained_store_holds_last_value payloadOf unlimited
           [Add "a" 1 low; Add "b" 2 high; Add "a" 3 normal] "a" 3 3).
  - intros v. eexists. reflexivity.
  - reflexivity.
  - reflexivity.
  - vm_compute. lia.
Defined.

End StorageQueueFacts.

(** ** The compressed store *)

Module CompressedStorageFacts.
Import LocalStorage CompressedStorage.

Section Compressed.

Context {V : Type}.
Variable stringify : V → option string.
Variable parse : string → option V.
Variable compress : string → string.
Variable decompress : string → option string.
Variable quota : gmap string string → string → string → bool.

Implicit Types (st : Store) (v : V).

Local Abbreviation setItem := (CompressedStorage.setItem stringify compress quota).
Local Abbreviation getItem := (CompressedStorage.getItem (V:=V) parse decompress).

(** What [getItem] returns depends on the stored items only. *)
Lemma getItem_items key st st' :
  items st = items st' → (getItem key st).1 = (getItem key st').1.
Proof.
  intros Hi. unfold CompressedStorage.getItem. rewrite Hi.
  destruct (items st' !! key) as [c|]; [|reflexivity].
  case_bool_decide; [reflexivity|].
  destruct (decompress c) as [d|]; [|reflexivity].
  case_bool_decide; [reflexivity|].
  now destruct (parse d).
Qed.

(** X16: a value that is stored is read back: when the value serialises,
    the store takes the compressed text, and decompressing and parsing undo
    compressing and serialising, [getItem] after [setItem] returns the
    value and logs nothing. *)
Theorem compressed_round_trip (key json : string) v st :
  stringify v = Some json → json ≠ "" →
  compress json ≠ "" →
  decompress (compress json) = Some json →
  parse json = Some v →
  quota (items st) key (compress json) = true →
  getItem key (setItem key v st) = (Some v, setItem key v st) ∧
  errors (setItem key v st) = errors st.
Proof.
  intros Hs Hj Hc Hd Hp Hq.
  assert (Hset : setItem key v st
                 = {| items := <[key := compress json]> (items st);
                      errors := errors st |}).
  { unfold CompressedStorage.setItem, LocalStorage.setItem. now rewrite Hs, Hq. }
  rewrite Hset. split; [|reflexivity].
  unfold CompressedStorage.getItem; simpl. rewrite lookup_insert_eq.
  rewrite bool_decide_eq_false_2 by exact Hc. rewrite Hd.
  rewrite bool_decide_eq_false_2 by exact Hj. now rewrite Hp.
Qed.

(** X17: a write that fails, because the value does not serialise or the
    store refuses it, is logged and leaves the store as it was: every key
    still reads as before. *)
Theorem failed_compressed_write_keeps_store (key key' : string) v st :
  (json ← stringify v;
   LocalStorage.setItem quota (items st) key (compress json)) = None →
  items (setItem key v st) = items st ∧
  (getItem key' (setItem key v st)).1 = (getItem key' st).1 ∧
  errors (setItem key v st) = errors st ++ ["Failed to compress and store:"].
Proof.
  intros Hfail.
  assert (Hset : setItem key v st
                 = {| items := items st;
                      errors := errors st ++ ["Failed to compress and store:"] |}).
  { unfold CompressedStorage.setItem.
    destruct (stringify v) as [json|]; simpl in *; [|reflexivity].
    now rewrite Hfail. }
  rewrite Hset. split; [reflexivity|]. split; [|reflexivity].
  now apply getItem_items.
Qed.

End Compressed.

(** Counters in a marked store. *)
Lemma compressed_round_trip_witness :
  let st := {| items := ∅; errors := [] |} in
  getItem countOf unmark "notes"
    (setItem payloadOf mark unlimited "notes" 3 st)
  = (Some 3, setItem payloadOf mark unlimited "notes" 3 st) ∧
  errors (setItem payloadOf mark unlimited "notes" 3 st) = errors st.
Proof.
  intros st.
  apply (compressed_round_trip payloadOf countOf mark unmark unlimited
           "notes" "xxx" 3 st); reflexivity || discriminate.
Defined.

(** A full store that holds a counter. *)
Lemma failed_compressed_write_keeps_store_witness :
  let st := setItem payloadOf mark unlimited "notes" 3
              {| items := ∅; errors := [] |} in
  items (setItem payloadOf mark full "notes" 7 st) = items st ∧
  (getItem countOf unmark "notes" (setItem payloadOf mark full "notes" 7 st)).1
  = (getItem countOf unmark "notes" st).1 ∧
  errors (setItem payloadOf mark full "notes" 7 st)
  = errors st ++ ["Failed to compress and store:"].
Proof.
  intros st.
  apply (failed_compressed_write_keeps_store payloadOf countOf mark unmark full
           "notes" "notes" 7 st).
  reflexivity.
Defined.

End CompressedStorageFacts.

(** ** The database, the clean-up and the migration *)

Module IndexedDBFacts.
Import LocalStorage IndexedDB.

Section Service.

Context {B N J : Type}.

Implicit Types (b : option (@Database B N J)) (space s : @Space B).
Implicit Types (xs : list (option (@Space B))).

Lemma saveSpace_keyed now space b : keyed b → keyed (saveSpace now space b).
Proof.
  intros Hk k s. unfold saveSpace; simpl.
  rewrite lookup_insert. case_decide as Hid.
  - intros [= <-]. exact Hid.
  - apply Hk.
Qed.


Lemma foldl_deleteSpace (olds : list Space) : ∀ b i,
  spaces (init (foldl (λ b' space, deleteSpace (id space) b') (Some (init b)) olds))
    !! i
  = if decide (i ∈ id <$> olds) then None else spaces (init b) !! i.
Proof.
  induction olds as [|s olds IH] using rev_ind; intros b i.
  - reflexivity.
  - rewrite foldl_snoc, fmap_app. unfold deleteSpace at 1. simpl.
    rewrite lookup_delete, IH.
    destruct (decide (id s = i)) as [<-|Hne].
    + rewrite decide_True; [reflexivity|].
      apply elem_of_app. right. apply list_elem_of_here.
    + destruct (decide (i ∈ id <$> olds)) as [Hin|Hnin].
      * rewrite decide_True; [reflexivity|]. apply elem_of_app. now left.
      * rewrite decide_False; [reflexivity|].
        intros Hin. apply elem_of_app in Hin as [Hin|Hin]; [contradiction|].
        apply list_elem_of_singleton in Hin. congruence.
Qed.

(** X19: the clean-up deletes exactly the spaces last updated before the
    cut-off, [daysToKeep] days before now, and keeps every other space
    unchanged. *)
Theorem cleanup_deletes_old_spaces (daysToKeep now : Z) b i :
  keyed b →
  getSpace i (cleanupOldData daysToKeep now b)
  = match getSpace i b with
    | Some space =>
        if (updatedAt space <? now - daysToKeep * 24 * 60 * 60 * 1000)%Z
        then None else Some space
    | None => None
    end.
Proof.
  intros Hk. unfold cleanupOldData, getSpace.
  set (cutoff := (now - daysToKeep * 24 * 60 * 60 * 1000)%Z).
  set (olds := filter (λ space, (updatedAt space < cutoff)%Z) (getSpaces b)).
  assert (Hin : i ∈ id <$> olds ↔
                ∃ space, spaces (init b) !! i = Some space
                         ∧ (updatedAt space < cutoff)%Z).
  { unfold olds, getSpaces. split.
    - intros Hi. apply list_elem_of_fmap in Hi as (s & -> & Hs).
      apply list_elem_of_filter in Hs as [Hold Hs].
      apply list_elem_of_fmap in Hs as ([k s'] & -> & Hs).
      apply elem_of_map_to_list in Hs. simpl in *.
      rewrite (Hk k s' Hs). eauto.
    - intros (s & Hs & Hold). apply list_elem_of_fmap. exists s.
      split; [symmetry; now apply (Hk i s)|].
      apply list_elem_of_filter. split; [exact Hold|].
      apply list_elem_of_fmap. exists (i, s). split; [reflexivity|].
      now apply elem_of_map_to_list. }
  assert (Hres : spaces (init (if (0 <? length olds)%nat
                               then foldl (λ b' space, deleteSpace (id space) b')
                                          (Some (init b)) olds
                               else Some (init b))) !! i
                 = if decide (i ∈ id <$> olds) then None
                   else spaces (init b) !! i).
  { destruct olds as [|o olds'] eqn:Ho.
    - reflexivity.
    - change (0 <? length (o :: olds'))%nat with true. cbv iota.
      apply foldl_deleteSpace. }
  rewrite Hres.
  destruct (decide (i ∈ id <$> olds)) as [Hi|Hi].
  - apply Hin in Hi as (s & -> & Hold).
    destruct (Z.ltb_spec (updatedAt s) cutoff); [reflexivity|lia].
  - destruct (spaces (init b) !! i) as [s|] eqn:Hs; [|reflexivity].
    destruct (Z.ltb_spec (updatedAt s) cutoff) as [Hold|_]; [|reflexivity].
    exfalso. apply Hi, Hin. eauto.
Qed.

(** ** The migration *)

Variable parseSpaces : string → option (list (option (@Space B))).
Variable validJson : string → bool.
Variable quota : gmap string string → string → string → bool.

Local Abbreviation migrate :=
  (IndexedDB.migrate (N:=N) (J:=J) parseSpaces validJson quota).

Lemma foldl_saveParsed now xs : ∀ (acc : option (@Database B N J) * bool),
  let r := foldl (saveParsed now) acc xs in
  notebooks (init r.1) = notebooks (init acc.1) ∧
  journal (init r.1) = journal (init acc.1) ∧
  (∀ i, (∀ s, Some s ∈ xs → id s ≠ i) →
        spaces (init r.1) !! i = spaces (init acc.1) !! i) ∧
  (∀ s, Some s ∈ xs →
        ∃ s0, Some s0 ∈ xs ∧ id s0 = id s ∧
              spaces (init r.1) !! id s = Some (stamp now s0)).
Proof.
  induction xs as [|x xs IH] using rev_ind; intros acc.
  - simpl. repeat split; try reflexivity. intros s Hs. inversion Hs.
  - cbv zeta. rewrite foldl_snoc.
    destruct (IH acc) as (Hn & Hj & Hother & Hsaved). clear IH.
    set (r := foldl (saveParsed now) acc xs) in *.
    destruct x as [s'|]; simpl.
    + split; [exact Hn|]. split; [exact Hj|]. split.
      * intros i Hi. rewrite lookup_insert_ne.
        -- apply Hother. intros s Hs. apply Hi. apply elem_of_app. now left.
        -- apply Hi. apply elem_of_app. right. apply list_elem_of_here.
      * intros s Hs. destruct (decide (id s' = id s)) as [Heq|Hne].
        -- exists s'. split; [apply elem_of_app; right; apply list_elem_of_here|].
           split; [exact Heq|]. rewrite <- Heq. apply lookup_insert_eq.
        -- apply elem_of_app in Hs as [Hs|Hs].
           ++ destruct (Hsaved s Hs) as (s0 & Hs0 & Hid & Hl).
              exists s0. split; [apply elem_of_app; now left|].
              split; [exact Hid|]. now rewrite lookup_insert_ne.
           ++ apply list_elem_of_singleton in Hs. congruence.
    + split; [exact Hn|]. split; [exact Hj|]. split.
      * intros i Hi. apply Hother. intros s Hs. apply Hi.
        apply elem_of_app. now left.
      * intros s Hs. apply elem_of_app in Hs as [Hs|Hs].
        -- destruct (Hsaved s Hs) as (s0 & Hs0 & Hid & Hl).
           exists s0. split; [apply elem_of_app; now left|]. now split.
        -- apply list_elem_of_singleton in Hs. discriminate.
Qed.

(** The three ways the migration can end. *)
Lemma migrate_cases now ls b :
  (ls !! migrationKey = Some "true" ∧ migrate now ls b = (ls, b, Returned)) ∨
  (ls !! migrationKey ≠ Some "true" ∧
   ∃ b1, (migrate now ls b = (<[migrationKey := "true"]> ls, b1, Returned) ∨
          migrate now ls b = (ls, b1, Threw))).
Proof.
  unfold IndexedDB.migrate. case_bool_decide as Hflag; [now left|right].
  split; [exact Hflag|].
  destruct (match present ls "spaces" with
            | Some data =>
                match parseSpaces data with
                | Some xs => foldl (saveParsed now) (b, true) xs
                | None => (b, false)
                end
            | None => (b, true)
            end) as [b1 ok1].
  exists b1.
  destruct (ok1 && _ && _); [|now right].
  unfold setItem. destruct (quota ls migrationKey "true"); [now left|now right].
Qed.

(** X20: the migration runs once. After it has returned, whether it
    migrated or found the flag set, another call changes neither
    localStorage nor the database. *)
Theorem migration_runs_once now now' ls b :
  (migrate now ls b).2 = Returned →
  migrate now' (migrate now ls b).1.1 (migrate now ls b).1.2
  = ((migrate now ls b).1.1, (migrate now ls b).1.2, Returned).
Proof.
  intros Hret.
  assert (Hflag : (migrate now ls b).1.1 !! migrationKey = Some "true").
  { destruct (migrate_cases now ls b) as [[Hf ->]|(_ & b1 & [->| Hthrew])];
      simpl; [exact Hf|apply lookup_insert_eq|].
    rewrite Hthrew in Hret. discriminate. }
  destruct (migrate now ls b) as [[ls' b'] o]. simpl in *.
  unfold IndexedDB.migrate. now rewrite bool_decide_eq_true_2.
Qed.

(** X21: a migration that fails leaves localStorage as it was, with the
    flag unset, so that the next start tries again. *)
Theorem failed_migration_is_retried now ls b :
  (migrate now ls b).2 = Threw →
  (migrate now ls b).1.1 = ls ∧ ls !! migrationKey ≠ Some "true".
Proof.
  intros Hthrew.
  destruct (migrate_cases now ls b) as [[_ H]|(Hf & b1 & [H|H])];
    rewrite H in Hthrew |- *; simpl in *; try discriminate.
  now split.
Qed.



(** The database after the migration: untouched, or the result of the
    saves. *)
Lemma migrate_database now ls b :
  (migrate now ls b).1.2 = b ∨
  ∃ data xs, present ls "spaces" = Some data ∧ parseSpaces data = Some xs ∧
             (migrate now ls b).1.2 = (foldl (saveParsed now) (b, true) xs).1.
Proof.
  unfold IndexedDB.migrate. case_bool_decide; [now left|].
  destruct (present ls "spaces") as [data|] eqn:Hd.
  - destruct (parseSpaces data) as [xs|] eqn:Hp.
    + right. exists data, xs. split; [reflexivity|]. split; [exact Hp|].
      destruct (foldl (saveParsed now) (b, true) xs) as [b1 ok1].
      destruct (ok1 && _ && _); [|reflexivity].
      now destruct (setItem quota ls migrationKey "true").
    + left. reflexivity.
  - left. simpl. destruct (_ && _); [|reflexivity].
    now destruct (setItem quota ls migrationKey "true").
Qed.

(** X23: the migration copies spaces only. Notebooks and journal entries
    are parsed but never written: the two object stores are after the
    migration what they were before, also when it reports success. *)
Theorem migration_skips_notebooks_and_journal now ls b :
  notebooks (init (migrate now ls b).1.2) = notebooks (init b) ∧
  journal (init (migrate now ls b).1.2) = journal (init b).
Proof.
  destruct (migrate_database now ls b) as [->|(data & xs & _ & _ & ->)];
    [now split|].
  destruct (foldl_saveParsed now xs (b, true)) as (Hn & Hj & _). now split.
Qed.

Lemma keyed_empty : keyed (B:=B) (N:=N) (J:=J) None.
Proof. intros k s Hs. simpl in Hs. now rewrite lookup_empty in Hs. Qed.

End Service.

(** Two spaces, one saved long ago and one today; the clean-up keeps 30
    days. *)
Lemma cleanup_deletes_old_spaces_witness :
  let b := saveSpace 2600000000 recent (saveSpace 10 stale fresh) in
  getSpace "s1" (cleanupOldData 30 2678400000 b)
  = match getSpace "s1" b with
    | Some space =>
        if (updatedAt space <? 2678400000 - 30 * 24 * 60 * 60 * 1000)%Z
        then None else Some space
    | None => None
    end.
Proof.
  intros b.
  apply (cleanup_deletes_old_spaces (N:=string) (J:=string) 30 2678400000 b "s1").
  apply saveSpace_keyed, saveSpace_keyed, keyed_empty.
Defined.

(** The ['spaces'] item holds the two sample spaces. *)
Lemma migration_runs_once_witness :
  let m := migrate (N:=string) (J:=string) sampleSpaces sampleJson unlimited
                   500 {["spaces" := "two"]} fresh in
  migrate sampleSpaces sampleJson unlimited 900 m.1.1 m.1.2
  = (m.1.1, m.1.2, Returned).
Proof.
  intros m.
  apply (migration_runs_once sampleSpaces sampleJson unlimited 500 900
           {["spaces" := "two"]} fresh).
  reflexivity.
Defined.

(** The ['spaces'] item does not parse. *)
Lemma failed_migration_is_retried_witness :
  let ls : gmap string string := {["spaces" := "bad"]} in
  (migrate (N:=string) (J:=string) sampleSpaces sampleJson unlimited
           500 ls fresh).1.1 = ls ∧
  ls !! migrationKey ≠ Some "true".
Proof.
  intros ls.
  apply (failed_migration_is_retried (N:=string) (J:=string)
           sampleSpaces sampleJson unlimited 500 ls fresh).
  reflexivity.
Defined.


End IndexedDBFacts.
